(** * analyzer.py: the wordlist-generation engine

    A shallow embedding of [src/analyzer.py] (tokenizer, leet expander,
    combiner, affixer, year injector, assembler and the size cap of
    [cmd_gen]) together with the properties of its specification.

    Python strings are sequences of Unicode code points: a [str] is a
    list of code points ([N]), compared lexicographically by code point.
    Python sets are [gset]s; iterating over a set goes through [elements],
    whose order is left unspecified, as Python's is.

    The character tables of CPython (white space, decimal digits, digits,
    cased characters and the full case mappings used by [str.lower],
    [str.upper], [str.capitalize] and [str.title]) are written out for the
    code points U+0000 to U+00FF, where they are exact for CPython 3.8 and
    later; code points above U+00FF are treated as caseless characters
    that are neither white space nor digits. *)

From Stdlib Require Import ZArith NArith Ascii String List Lia.
From stdpp Require Import base decidable list sorting gmap.

Local Open Scope N_scope.

(** ** Strings *)

Abbreviation pystr := (list N).

(** A string literal of the source, as code points. *)
Definition lit (s : string) : pystr :=
  map N_of_ascii (list_ascii_of_string s).

Module Unicode.

Definition in_range (lo hi c : N) : bool := (lo <=? c) && (c <=? hi).

(** [Py_UNICODE_ISSPACE], used by [str.strip] and by [\s] in [re]. *)
Definition isspace (c : N) : bool :=
  in_range 9 13 c || in_range 28 32 c || (c =? 133) || (c =? 160).

(** [Py_UNICODE_ISDECIMAL], used by [\d] in [re]. *)
Definition isdecimal (c : N) : bool := in_range 48 57 c.

(** [Py_UNICODE_ISDIGIT], used by [str.isdigit]: the decimal digits and
    the superscripts two, three and one. *)
Definition isdigit (c : N) : bool :=
  in_range 48 57 c || (c =? 178) || (c =? 179) || (c =? 185).

(** [_PyUnicode_IsCased]. *)
Definition iscased (c : N) : bool :=
  in_range 65 90 c || in_range 97 122 c
  || (c =? 170) || (c =? 181) || (c =? 186)
  || (in_range 192 255 c && negb (c =? 215) && negb (c =? 247)).

(** [_PyUnicode_ToLowerFull]. *)
Definition tolower (c : N) : pystr :=
  if in_range 65 90 c || (in_range 192 222 c && negb (c =? 215))
  then [c + 32] else [c].

(** [_PyUnicode_ToUpperFull]: the sharp s becomes two letters, the micro
    sign and the y with diaeresis leave the first 256 code points. *)
Definition toupper (c : N) : pystr :=
  if in_range 97 122 c || (in_range 224 254 c && negb (c =? 247))
  then [c - 32]
  else if c =? 181 then [924]
  else if c =? 223 then [83; 83]
  else if c =? 255 then [376]
  else [c].

(** [_PyUnicode_ToTitleFull]. *)
Definition totitle (c : N) : pystr :=
  if c =? 223 then [83; 115] else toupper c.

Definition is_ascii (c : N) : bool := c <? 128.

End Unicode.

(** ** The [str] methods the program calls *)

Definition lower (s : pystr) : pystr := flat_map Unicode.tolower s.

Definition upper (s : pystr) : pystr := flat_map Unicode.toupper s.

(** [str.capitalize]: the first character in title case, the rest in
    lower case. *)
Definition capitalize (s : pystr) : pystr :=
  match s with
  | [] => []
  | c :: rest => Unicode.totitle c ++ lower rest
  end.

(** [str.title]: a character that follows a cased character is lowered,
    any other is put in title case. *)
Fixpoint title_from (previous_is_cased : bool) (s : pystr) : pystr :=
  match s with
  | [] => []
  | c :: rest =>
      (if previous_is_cased then Unicode.tolower c else Unicode.totitle c)
        ++ title_from (Unicode.iscased c) rest
  end.

Definition title (s : pystr) : pystr := title_from false s.

(** [str.isdigit]: non-empty and every character a digit. *)
Definition isdigit (s : pystr) : bool :=
  match s with
  | [] => false
  | _ => forallb Unicode.isdigit s
  end.

Fixpoint lstrip (s : pystr) : pystr :=
  match s with
  | [] => []
  | c :: rest => if Unicode.isspace c then lstrip rest else s
  end.

Definition rstrip (s : pystr) : pystr := rev (lstrip (rev s)).

Definition strip (s : pystr) : pystr := rstrip (lstrip s).

(** Python's order on [str]: lexicographic on code points, a proper prefix
    first. *)
Fixpoint str_leb (a b : pystr) : bool :=
  match a, b with
  | [], _ => true
  | _ :: _, [] => false
  | x :: a', y :: b' =>
      if x <? y then true else if y <? x then false else str_leb a' b'
  end.

Definition str_le (a b : pystr) : Prop := str_leb a b = true.

Definition str_lt (a b : pystr) : Prop := str_le a b ∧ a ≠ b.

#[global] Instance str_le_dec : RelDecision str_le.
Proof. intros a b. unfold str_le. apply _. Defined.

(** [sorted] on a collection of strings. *)
Definition sorted (l : list pystr) : list pystr := merge_sort str_le l.

(** ** [str] of an [int] *)

Fixpoint dec_digits (fuel : nat) (n : N) (acc : pystr) : pystr :=
  match fuel with
  | O => acc
  | S fuel' =>
      let acc' := (48 + n mod 10) :: acc in
      if n / 10 =? 0 then acc' else dec_digits fuel' (n / 10) acc'
  end.

Definition str_of_N (n : N) : pystr :=
  dec_digits (S (N.to_nat (N.log2 n))) n [].

Definition str_of_int (z : Z) : pystr :=
  match z with
  | Zneg p => 45 :: str_of_N (Npos p)
  | _ => str_of_N (Z.to_N z)
  end.

(** [range(a, b)] *)
Definition range (a b : Z) : list Z :=
  map (fun i => (a + Z.of_nat i)%Z) (seq 0 (Z.to_nat (b - a))).

(** ** Regular-expression splitting *)

(** [re.split] on a pattern that matches one or more characters of a
    class: the pieces between the maximal runs
    of characters of the class, empty pieces at both ends included. *)
Fixpoint re_split_runs (sep : N -> bool) (in_run : bool) (piece : pystr)
    (s : pystr) : list pystr :=
  match s with
  | [] => [piece]
  | c :: rest =>
      if sep c
      then if in_run then re_split_runs sep true piece rest
           else piece :: re_split_runs sep true [] rest
      else re_split_runs sep false (piece ++ [c]) rest
  end.

(** [re.split] on a pattern that matches one character of a class: every
    such character separates two pieces. *)
Fixpoint re_split_each (sep : N -> bool) (piece : pystr) (s : pystr)
    : list pystr :=
  match s with
  | [] => [piece]
  | c :: rest =>
      if sep c then piece :: re_split_each sep [] rest
      else re_split_each sep (piece ++ [c]) rest
  end.

(** ** The program *)

(** [LEET_MAP], a dictionary from one-character strings to strings. *)
Definition LEET_MAP : list (pystr * pystr) :=
  [ (lit "a", lit "4"); (lit "b", lit "8"); (lit "e", lit "3");
    (lit "g", lit "9"); (lit "i", lit "1"); (lit "l", lit "1");
    (lit "o", lit "0"); (lit "s", lit "5"); (lit "t", lit "7");
    (lit "z", lit "2") ].

Definition COMMON_SUFFIXES : list pystr :=
  [ lit "!"; lit "@"; lit "#"; lit "$"; lit "123"; lit "1234"; lit "12345";
    lit "1"; lit "01"; lit "007"; lit "2024"; lit "2025" ].

Definition COMMON_PREFIXES : list pystr :=
  [ lit "!"; lit "@"; lit "#"; lit "$" ].

(** [dict.get(key, None)] *)
Fixpoint dict_get (d : list (pystr * pystr)) (key : pystr) : option pystr :=
  match d with
  | [] => None
  | (k, v) :: d' => if decide (k = key) then Some v else dict_get d' key
  end.

(** [itertools.product] over the unpacked [options], in the order Python
    yields it. *)
Fixpoint product {A} (options : list (list A)) : list (list A) :=
  match options with
  | [] => [[]]
  | o :: rest => x ← o; (fun t => x :: t) <$> product rest
  end.

(** The alternatives of one character of [l33tify]: the character, and its
    replacement when [LEET_MAP] has one that is not the empty string. *)
Definition leet_option (c : N) : list pystr :=
  match dict_get LEET_MAP [c] with
  | Some repl => if decide (repl ≠ []) then [[c]; repl] else [[c]]
  | None => [[c]]
  end.

Definition l33tify (word : pystr) : gset pystr :=
  let word := lower word in
  let variants : gset pystr := {[ word ]} in
  let options := map leet_option word in
  let variants :=
    foldl (fun vs combo => vs ∪ {[ concat combo ]}) variants (product options) in
  variants ∪ {[ capitalize word; upper word; title word ]}.

(** [itertools.permutations(words, 2)]: the pairs of elements at two
    different positions, in the order Python yields them. *)
Fixpoint pairs_from {A} (before l : list A) : list (A * A) :=
  match l with
  | [] => []
  | x :: after => (pair x <$> (before ++ after)) ++ pairs_from (before ++ [x]) after
  end.

Definition permutations2 {A} (l : list A) : list (A * A) := pairs_from [] l.

Definition seps : list pystr :=
  [ lit ""; lit "."; lit "_"; lit "-"; lit "@" ].

Definition mix (words : list pystr) : gset pystr :=
  let words := filter (fun w => w ≠ []) words in
  let out : gset pystr := ∅ in
  let out := foldl (fun out w => out ∪ l33tify w) out words in
  let out :=
    foldl (fun out '(a, b) => out ∪ {[ a ++ b ]} ∪ {[ b ++ a ]})
          out (permutations2 words) in
  let out :=
    foldl (fun out '(a, b) =>
             foldl (fun out s => out ∪ {[ a ++ s ++ b ]}) out seps)
          out (permutations2 words) in
  out.

Definition sprinkle (words : list pystr) : gset pystr :=
  foldl (fun out w =>
           let out := foldl (fun out suf => out ∪ {[ w ++ suf ]}) out COMMON_SUFFIXES in
           foldl (fun out pre => out ∪ {[ pre ++ w ]}) out COMMON_PREFIXES)
        ∅ words.

Definition year_range (start end_ : Z) : list pystr :=
  map str_of_int (range start (end_ + 1)).

(** The character class of the pattern of [split_tokens]: comma, white
    space, slash, underscore, hyphen and period. *)
Definition is_separator (c : N) : bool :=
  (c =? 44) || Unicode.isspace c || (c =? 47) || (c =? 95)
  || (c =? 45) || (c =? 46).

Definition split_tokens (s : pystr) : list pystr :=
  let parts := re_split_runs is_separator false [] (strip s) in
  filter (fun p => p ≠ []) parts.

(** [d[-2:]] *)
Definition last_two (d : pystr) : pystr := drop (length d - 2) d.

(** The tokens [gen_wordlist] derives from the date of birth. *)
Definition dob_tokens (dob : pystr) : list pystr :=
  let dob := strip dob in
  if decide (dob ≠ []) then
    let ds := re_split_each (fun c => negb (Unicode.isdecimal c)) [] dob in
    let ds := filter (fun d => d ≠ []) ds in
    ds ++ flat_map (fun d => if decide (length d = 4%nat) then [last_two d] else []) ds
  else [].

(** The list [tokens] of [gen_wordlist]. *)
Definition tokens_of (name pet dob keywords : pystr) : list pystr :=
  split_tokens name ++ split_tokens pet ++ split_tokens keywords
    ++ dob_tokens dob.

(** The set [years] of [gen_wordlist]; [now] is the current year, read by
    the source from the clock. *)
Definition years_of (now : Z) (extra_years : pystr) : gset pystr :=
  let years : gset pystr := list_to_set (year_range 1990 (now + 1)) in
  if decide (extra_years ≠ []) then
    foldl (fun years y => if isdigit y then years ∪ {[ y ]} else years)
          years (split_tokens extra_years)
  else years.

(** The loop of [gen_wordlist] that attaches the years. *)
Definition append_years (pool years : gset pystr) : gset pystr :=
  foldl (fun with_years w =>
           foldl (fun with_years y => with_years ∪ {[ w ++ y ]} ∪ {[ y ++ w ]})
                 with_years (sorted (elements years)))
        pool (elements pool).

(** The set [with_years] of [gen_wordlist] when it is handed to [sorted]:
    the full deduplicated candidate set. *)
Definition candidates (now : Z) (name pet dob keywords extra_years : pystr)
    : gset pystr :=
  let tokens := tokens_of name pet dob keywords in
  let base : gset pystr := list_to_set tokens in
  let years := years_of now extra_years in
  let pool := mix (elements base) in
  let pool := pool ∪ sprinkle (elements pool) in
  let with_years := append_years pool years in
  with_years ∪ base.

Definition gen_wordlist (now : Z) (name pet dob keywords extra_years : pystr)
    : list pystr :=
  sorted (elements (candidates now name pet dob keywords extra_years)).

(** [l[:stop]] *)
Definition slice_to {A} (stop : Z) (l : list A) : list A :=
  if (0 <=? stop)%Z then take (Z.to_nat stop) l
  else take (Z.to_nat (Z.of_nat (length l) + stop)) l.

(** [cmd_gen]: the lines written to the output file, in order. *)
Definition cmd_gen (now : Z) (name pet dob keywords years : pystr) (max : Z)
    : list pystr :=
  let words := gen_wordlist now name pet dob keywords years in
  if decide (max ≠ 0%Z ∧ (Z.of_nat (length words) > max)%Z)
  then slice_to max words
  else words.

(** ** The candidates as a list

    The same candidates, built with lists only, so that the program can be
    evaluated on a concrete input. [elem_of_candidates_list] relates the
    two. *)

Definition l33tify_list (word : pystr) : list pystr :=
  let word := lower word in
  map (fun combo => concat combo) (product (map leet_option word))
    ++ [capitalize word; upper word; title word].

Definition mix_list (words : list pystr) : list pystr :=
  let words := filter (fun w => w ≠ []) words in
  flat_map l33tify_list words
    ++ flat_map (fun ab => map (fun s => ab.1 ++ s ++ ab.2) seps)
                (permutations2 words).

Definition sprinkle_list (words : list pystr) : list pystr :=
  flat_map (fun w => map (fun suf => w ++ suf) COMMON_SUFFIXES
                     ++ map (fun pre => pre ++ w) COMMON_PREFIXES)
           words.

Definition pool_list (tokens : list pystr) : list pystr :=
  let pool := mix_list (remove_dups tokens) in
  pool ++ sprinkle_list pool.

Definition years_list (now : Z) (extra_years : pystr) : list pystr :=
  year_range 1990 (now + 1) ++ List.filter isdigit (split_tokens extra_years).

Definition candidates_list (now : Z) (name pet dob keywords extra_years : pystr)
    : list pystr :=
  let tokens := tokens_of name pet dob keywords in
  let pool := pool_list tokens in
  let years := years_list now extra_years in
  tokens ++ pool ++ flat_map (fun w => flat_map (fun y => [w ++ y; y ++ w]) years) pool.

Definition str_ltb (a b : pystr) : bool := negb (str_leb b a).

(** The number of entries of a list below a string. *)
Fixpoint count_below (x : pystr) (l : list pystr) : N :=
  match l with
  | [] => 0
  | c :: l' => if str_ltb c x then N.succ (count_below x l') else count_below x l'
  end.

(** The entries of a list in order, without the repeated ones. *)
Fixpoint uniq (l : list pystr) : list pystr :=
  match l with
  | [] => []
  | x :: l' =>
      match l' with
      | [] => [x]
      | y :: _ => if str_ltb x y then x :: uniq l' else uniq l'
      end
  end.

Fixpoint increasing (l : list pystr) : bool :=
  match l with
  | [] => true
  | x :: l' =>
      match l' with
      | [] => true
      | y :: _ => str_ltb x y && increasing l'
      end
  end.

(** *** The end-to-end example of the specification *)

(** The strings of the example that are below [john], for the year 2016,
    in increasing order. *)
Definition example_below_john : list pystr :=
  uniq (sorted (List.filter (fun c => str_ltb c (lit "john"))
    (candidates_list 2016 (lit "John") [] (lit "1999-05-01") [] []))).

(** The candidates of the example for the year 2025, as a list. *)
Definition example_candidates_2025 : list pystr :=
  candidates_list 2025 (lit "John") [] (lit "1999-05-01") [] [].

(** ** The specification's view of the leet expander *)

(** The letter-to-digit table as the specification words it: a to 4, b to
    8, e to 3, g to 9, i to 1, l to 1, o to 0, s to 5, t to 7, z to 2. *)
Definition spec_leet_digit (c : N) : option N :=
  if c =? 97 then Some 52
  else if c =? 98 then Some 56
  else if c =? 101 then Some 51
  else if c =? 103 then Some 57
  else if c =? 105 then Some 49
  else if c =? 108 then Some 49
  else if c =? 111 then Some 48
  else if c =? 115 then Some 53
  else if c =? 116 then Some 55
  else if c =? 122 then Some 50
  else None.

(** The alternatives of the specification at one position: the original
    character, or its digit when the table maps it. *)
Definition spec_alternative (c d : N) : Prop :=
  d = c ∨ spec_leet_digit c = Some d.

(** The cross-product of the specification: one alternative chosen at
    every position. *)
Definition spec_cross_product (word variant : pystr) : Prop :=
  Forall2 spec_alternative word variant.

(** The set [pool] of [gen_wordlist] before the years are attached. *)
Definition pool_of (tokens : list pystr) : gset pystr :=
  let base : gset pystr := list_to_set tokens in
  let pool := mix (elements base) in
  pool ∪ sprinkle (elements pool).

(** ** Auxiliary functions of the further properties *)





(** [int(s)] for a string of decimal digits. *)
Definition int_of_digits (s : pystr) : N :=
  fold_left (fun a c => 10 * a + (c - 48)) s 0.


(** * Properties *)

(** ** The order on strings *)

Section StrOrder.

Lemma str_leb_refl a : str_leb a a = true.
Proof.
  induction a as [|x a IH]; simpl; [done|].
  by rewrite N.ltb_irrefl.
Qed.

Lemma str_leb_total a b : str_leb a b = true ∨ str_leb b a = true.
Proof.
  revert b. induction a as [|x a IH]; intros [|y b]; simpl; auto.
  destruct (N.ltb_spec x y), (N.ltb_spec y x); auto; lia.
Qed.

Lemma str_leb_antisym a b :
  str_leb a b = true → str_leb b a = true → a = b.
Proof.
  revert b. induction a as [|x a IH]; intros [|y b]; simpl; try done.
  destruct (N.ltb_spec x y), (N.ltb_spec y x); try done; try lia.
  intros Hab Hba. assert (x = y) as -> by lia. f_equal. by apply IH.
Qed.

Lemma str_leb_trans a b c :
  str_leb a b = true → str_leb b c = true → str_leb a c = true.
Proof.
  revert b c. induction a as [|x a IH]; intros [|y b] [|z c]; simpl; try done.
  destruct (N.ltb_spec x y), (N.ltb_spec y x), (N.ltb_spec y z),
    (N.ltb_spec z y), (N.ltb_spec x z), (N.ltb_spec z x);
    try done; try lia.
  apply IH.
Qed.

#[global] Instance str_le_refl : Reflexive str_le.
Proof. intros a. apply str_leb_refl. Qed.

#[global] Instance str_le_trans : Transitive str_le.
Proof. intros a b c. apply str_leb_trans. Qed.

#[global] Instance str_le_total : Total str_le.
Proof. intros a b. apply str_leb_total. Qed.

#[global] Instance str_le_antisym : AntiSymm (=) str_le.
Proof. intros a b. apply str_leb_antisym. Qed.

Lemma str_lt_irrefl a : ¬ str_lt a a.
Proof. by intros [_ ?]. Qed.

Lemma str_lt_le_trans a b c : str_lt a b → str_le b c → str_lt a c.
Proof.
  intros [Hab Hne] Hbc. split; [by etrans|].
  intros ->. apply Hne. by apply (anti_symm str_le).
Qed.

Lemma str_le_lt_trans a b c : str_le a b → str_lt b c → str_lt a c.
Proof.
  intros Hab [Hbc Hne]. split; [by etrans|].
  intros ->. apply Hne. by apply (anti_symm str_le).
Qed.

Lemma str_le_not_lt a b : str_le a b → ¬ str_lt b a.
Proof. intros Hab [Hba Hne]. apply Hne. by apply (anti_symm str_le). Qed.

End StrOrder.

(** ** [sorted] *)

Section Sorted.

Lemma sorted_perm l : sorted l ≡ₚ l.
Proof. apply merge_sort_Permutation. Qed.

Lemma elem_of_sorted l x : x ∈ sorted l ↔ x ∈ l.
Proof. by rewrite sorted_perm. Qed.

Lemma length_sorted l : length (sorted l) = length l.
Proof. by rewrite sorted_perm. Qed.

Lemma sorted_StronglySorted l : StronglySorted str_le (sorted l).
Proof. apply (StronglySorted_merge_sort str_le). Qed.

Lemma sorted_NoDup l : NoDup l → NoDup (sorted l).
Proof. by rewrite sorted_perm. Qed.

(** Without duplicates, a list in order is in strict order. *)
Lemma StronglySorted_le_lt (l : list pystr) :
  StronglySorted str_le l → NoDup l → StronglySorted str_lt l.
Proof.
  induction 1 as [|x l Hl IH Hx]; intros Hnd; [constructor|].
  apply NoDup_cons in Hnd as [Hnotin Hnd].
  constructor; [by apply IH|].
  rewrite Forall_forall in Hx. apply Forall_forall. intros y Hy. split.
  - by apply Hx.
  - by intros ->.
Qed.

Lemma sorted_strict l : NoDup l → StronglySorted str_lt (sorted l).
Proof.
  intros. apply StronglySorted_le_lt;
    [apply sorted_StronglySorted | by apply sorted_NoDup].
Qed.

(** [sorted] depends on the elements only, not on their order. *)
Lemma sorted_unique l k :
  NoDup l → NoDup k → (∀ x, x ∈ l ↔ x ∈ k) → sorted l = sorted k.
Proof.
  intros Hl Hk Heq.
  apply (Sorted_unique str_le).
  - apply StronglySorted_Sorted, sorted_StronglySorted.
  - apply StronglySorted_Sorted, sorted_StronglySorted.
  - rewrite !sorted_perm. by apply NoDup_Permutation.
Qed.

(** An element beyond a prefix of a list in strict order is above the
    elements of the prefix. *)
Lemma StronglySorted_take_lt (l : list pystr) n x y :
  StronglySorted str_lt l → x ∈ take n l → y ∈ l → y ∉ take n l →
  str_lt x y.
Proof.
  intros Hl Hx Hy Hny.
  rewrite <- (take_drop n l) in Hl, Hy.
  apply elem_of_app in Hy as [Hy|Hy]; [done|].
  by apply (StronglySorted_app_1_elem_of str_lt _ _ x y) in Hl.
Qed.

Lemma StronglySorted_take {A} (R : relation A) n (l : list A) :
  StronglySorted R l → StronglySorted R (take n l).
Proof.
  intros Hl. rewrite <- (take_drop n l) in Hl.
  by apply StronglySorted_app_1_l in Hl.
Qed.

End Sorted.

(** ** Lists *)

Lemma elem_of_map {A B} (f : A → B) (l : list A) (y : B) :
  y ∈ map f l ↔ ∃ x, y = f x ∧ x ∈ l.
Proof. apply (list_elem_of_fmap f). Qed.

Lemma elem_of_flat_map {A B} (f : A → list B) (l : list A) (y : B) :
  y ∈ flat_map f l ↔ ∃ x, y ∈ f x ∧ x ∈ l.
Proof.
  rewrite list_elem_of_In, in_flat_map. setoid_rewrite list_elem_of_In.
  naive_solver.
Qed.

Lemma elem_of_List_filter {A} (f : A → bool) (l : list A) (x : A) :
  x ∈ List.filter f l ↔ x ∈ l ∧ f x = true.
Proof. rewrite !list_elem_of_In. apply filter_In. Qed.

(** ** Loops that grow a set *)

Section Loops.

(** A loop whose body only adds to the set it builds: the result is the
    initial set with what each iteration adds. *)
Lemma elem_of_foldl_grow {A} (g : gset pystr → A → gset pystr)
    (P : A → pystr → Prop) :
  (∀ out w x, x ∈ g out w ↔ x ∈ out ∨ P w x) →
  ∀ l init x, x ∈ foldl g init l ↔ x ∈ init ∨ ∃ w, w ∈ l ∧ P w x.
Proof.
  intros Hg l. induction l as [|w l IH]; intros init x; simpl.
  - split; [auto|]. intros [?|(w & Hw & _)]; [done|]. by apply elem_of_nil in Hw.
  - rewrite IH, Hg. split.
    + intros [[?|?]|(w' & ? & ?)]; [by left| |].
      * right. exists w. split; [left|done].
      * right. exists w'. split; [by right|done].
    + intros [?|(w' & [->|?]%elem_of_cons & ?)]; [by left; left|by left; right|].
      right. by exists w'.
Qed.

Lemma elem_of_foldl_union {A} (f : A → gset pystr) (l : list A) init x :
  x ∈ foldl (fun out w => out ∪ f w) init l
  ↔ x ∈ init ∨ ∃ w, w ∈ l ∧ x ∈ f w.
Proof.
  apply (elem_of_foldl_grow _ (fun w x => x ∈ f w)).
  intros. apply elem_of_union.
Qed.

Lemma elem_of_foldl_add {A} (f : A → pystr) (l : list A)
    (init : gset pystr) (x : pystr) :
  x ∈ foldl (fun out w => out ∪ {[ f w ]}) init l
  ↔ x ∈ init ∨ ∃ w, w ∈ l ∧ x = f w.
Proof.
  apply (elem_of_foldl_grow _ (fun w x => x = f w)).
  intros. by rewrite elem_of_union, elem_of_singleton.
Qed.

End Loops.

(** ** [itertools.product] and [itertools.permutations] *)

Section Itertools.
Context {A : Type}.

Lemma elem_of_product (options : list (list A)) (t : list A) :
  t ∈ product options ↔ Forall2 (fun o x => x ∈ o) options t.
Proof.
  revert t. induction options as [|o rest IH]; intros t; simpl.
  - rewrite list_elem_of_singleton. split; [intros ->; constructor|].
    by intros ->%Forall2_nil_inv_l.
  - rewrite list_elem_of_bind. split.
    + intros (x & (t' & -> & Ht')%list_elem_of_fmap & Hx).
      constructor; [done|]. by apply IH.
    + intros (x & t' & Hx & Ht' & ->)%Forall2_cons_inv_l.
      exists x. split; [|done]. apply list_elem_of_fmap.
      exists t'. split; [done|]. by apply IH.
Qed.

Lemma elem_of_pairs_from (before l : list A) a b :
  (a, b) ∈ pairs_from before l
  ↔ ∃ l1 l2, l = l1 ++ a :: l2 ∧ b ∈ before ++ l1 ++ l2.
Proof.
  revert before. induction l as [|x after IH]; intros before; simpl.
  - split; [by intros ?%elem_of_nil|].
    intros (l1 & l2 & Hl & _). by destruct l1.
  - rewrite elem_of_app, list_elem_of_fmap, IH. split.
    + intros [(b' & [= -> ->] & Hb)|(l1 & l2 & -> & Hb)].
      * by exists [], after.
      * exists (x :: l1), l2. split; [done|].
        rewrite <- app_assoc in Hb. simpl in Hb. done.
    + intros (l1 & l2 & Hl & Hb). destruct l1 as [|x' l1]; simplify_eq/=.
      * left. by exists b.
      * right. exists l1, l2. split; [done|].
        by rewrite <- app_assoc.
Qed.

Lemma elem_of_permutations2 (l : list A) a b :
  (a, b) ∈ permutations2 l ↔ ∃ l1 l2, l = l1 ++ a :: l2 ∧ b ∈ l1 ++ l2.
Proof. unfold permutations2. by rewrite elem_of_pairs_from. Qed.

(** Two different elements of the list are paired, in both orders. *)
Lemma permutations2_intro (l : list A) a b :
  a ∈ l → b ∈ l → a ≠ b → (a, b) ∈ permutations2 l.
Proof.
  intros (l1 & l2 & ->)%list_elem_of_split Hb Hne.
  apply elem_of_permutations2. exists l1, l2. split; [done|].
  rewrite elem_of_app, elem_of_cons in Hb. rewrite elem_of_app.
  destruct Hb as [?|[?|?]]; by auto.
Qed.

Lemma permutations2_elem_of (l : list A) a b :
  (a, b) ∈ permutations2 l → a ∈ l ∧ b ∈ l.
Proof.
  intros (l1 & l2 & -> & Hb)%elem_of_permutations2.
  rewrite elem_of_app in Hb. rewrite !elem_of_app, !elem_of_cons.
  destruct Hb; auto.
Qed.

(** In a list without duplicates an element is never paired with
    itself. *)
Lemma permutations2_NoDup (l : list A) a b :
  NoDup l → (a, b) ∈ permutations2 l ↔ a ∈ l ∧ b ∈ l ∧ a ≠ b.
Proof.
  intros Hnd. split.
  - intros Hab. destruct (permutations2_elem_of _ _ _ Hab) as [Ha Hb].
    do 2 (split; [done|]).
    apply elem_of_permutations2 in Hab as (l1 & l2 & -> & Hb').
    intros ->. apply NoDup_app in Hnd as (_ & Hd & Hnd2).
    apply NoDup_cons in Hnd2 as [Hn2 _].
    apply elem_of_app in Hb' as [Hb'|Hb']; [|done].
    apply (Hd _ Hb'). left.
  - intros (? & ? & ?). by apply permutations2_intro.
Qed.

Lemma permutations2_sym (l : list A) a b :
  (a, b) ∈ permutations2 l → (b, a) ∈ permutations2 l.
Proof.
  intros (l1 & l2 & -> & Hb)%elem_of_permutations2.
  apply elem_of_permutations2.
  apply elem_of_app in Hb as [Hb|Hb].
  - apply list_elem_of_split in Hb as (k1 & k2 & ->).
    exists k1, (k2 ++ a :: l2). split; [by rewrite <- app_assoc|].
    rewrite !elem_of_app, elem_of_cons. auto.
  - apply list_elem_of_split in Hb as (k1 & k2 & ->).
    exists (l1 ++ a :: k1), k2. split; [by rewrite <- app_assoc|].
    rewrite !elem_of_app, elem_of_cons. auto.
Qed.

End Itertools.

(** ** The leet expander *)

Section Leet.

Lemma leet_option_spec c :
  leet_option c =
    match spec_leet_digit c with
    | Some d => [[c]; [d]]
    | None => [[c]]
    end.
Proof.
  unfold spec_leet_digit.
  repeat match goal with
  | |- context [ c =? ?k ] =>
      destruct (N.eqb_spec c k) as [->|?]; [by vm_compute|]
  end.
  unfold leet_option. simpl.
  repeat (case_decide;
          [match goal with
           | Hk : _ = [c] |- _ => vm_compute in Hk; congruence
           end|]).
  done.
Qed.

Lemma elem_of_leet_option c p :
  p ∈ leet_option c ↔ ∃ d, p = [d] ∧ spec_alternative c d.
Proof.
  rewrite leet_option_spec. unfold spec_alternative.
  destruct (spec_leet_digit c) as [d|].
  - rewrite !elem_of_cons, elem_of_nil. naive_solver.
  - rewrite list_elem_of_singleton. naive_solver.
Qed.

(** Joining one alternative per position gives the cross-product. *)
Lemma leet_combos_spec (word x : pystr) :
  (∃ combo, combo ∈ product (map leet_option word) ∧ x = concat combo)
  ↔ spec_cross_product word x.
Proof.
  unfold spec_cross_product. revert x.
  induction word as [|c word IH]; intros x; split.
  - intros (combo & Hc & ->). apply elem_of_product in Hc. cbn [map] in Hc.
    apply Forall2_nil_inv_l in Hc as ->. constructor.
  - intros ->%Forall2_nil_inv_l. exists [].
    split; [apply elem_of_product; constructor|done].
  - intros (combo & Hc & ->). apply elem_of_product in Hc. cbn [map] in Hc.
    apply Forall2_cons_inv_l in Hc as (p & combo' & Hp & Hc & ->).
    apply elem_of_leet_option in Hp as (d & -> & Hd).
    change (concat ([d] :: combo')) with (d :: concat combo').
    constructor; [done|]. apply IH. exists combo'.
    split; [by apply elem_of_product|done].
  - intros (d & x' & Hd & Hx & ->)%Forall2_cons_inv_l.
    apply IH in Hx as (combo & Hc & ->). exists ([d] :: combo).
    split; [|done]. apply elem_of_product. cbn [map]. constructor.
    + apply elem_of_leet_option. by exists d.
    + by apply elem_of_product.
Qed.

Lemma spec_cross_product_refl word : spec_cross_product word word.
Proof. apply Forall_Forall2_diag, Forall_forall. intros; by left. Qed.

Lemma spec_cross_product_length word x :
  spec_cross_product word x → length x = length word.
Proof. intros H. symmetry. by apply Forall2_length in H. Qed.

(** Where the table maps no character, the cross-product is the word. *)
Lemma spec_cross_product_none word x :
  Forall (fun c => spec_leet_digit c = None) word →
  spec_cross_product word x → x = word.
Proof.
  unfold spec_cross_product. intros Hnone. revert x.
  induction Hnone as [|c w Hc Hw IH]; intros x Hx.
  - by apply Forall2_nil_inv_l in Hx.
  - apply Forall2_cons_inv_l in Hx as (d & x' & [->|Hd] & Hx' & ->).
    + f_equal. by apply IH.
    + congruence.
Qed.

(** Membership in [l33tify], in the words of the specification. *)
Lemma elem_of_l33tify word x :
  x ∈ l33tify word
  ↔ spec_cross_product (lower word) x
    ∨ x = capitalize (lower word)
    ∨ x = upper (lower word)
    ∨ x = title (lower word).
Proof.
  unfold l33tify. rewrite elem_of_union, elem_of_foldl_add.
  rewrite !elem_of_union, !elem_of_singleton.
  rewrite <- leet_combos_spec. split.
  - intros [[->|?]|[[->| ->]| ->]]; auto.
    left. apply leet_combos_spec, spec_cross_product_refl.
  - intros [?|[->|[->| ->]]]; auto.
Qed.

End Leet.

(** ** The combiner and the affixer *)

Section Combine.

(** Membership in [mix]: a leet variant of a word, or two words at
    different positions joined by a separator. The plain concatenations
    of the first loop are the joins by the empty separator. *)
Lemma elem_of_mix (words : list pystr) (x : pystr) :
  x ∈ mix words
  ↔ (∃ w, w ∈ filter (fun w => w ≠ []) words ∧ x ∈ l33tify w)
    ∨ (∃ a b s, (a, b) ∈ permutations2 (filter (fun w => w ≠ []) words)
                ∧ s ∈ seps ∧ x = a ++ s ++ b).
Proof.
  unfold mix. set (ws := filter (fun w => w ≠ []) words).
  rewrite (elem_of_foldl_grow _
    (fun ab x => ∃ s, s ∈ seps ∧ x = ab.1 ++ s ++ ab.2)).
  2:{ intros out [a b] y. rewrite elem_of_foldl_add. naive_solver. }
  rewrite (elem_of_foldl_grow _
    (fun ab x => x = ab.1 ++ ab.2 ∨ x = ab.2 ++ ab.1)).
  2:{ intros out [a b] y. rewrite !elem_of_union, !elem_of_singleton.
      simpl. tauto. }
  rewrite elem_of_foldl_union, elem_of_empty. split.
  - intros [[[[]|?]|([a b] & Hab & Hx)]|([a b] & Hab & s & Hs & ->)].
    + by left.
    + right. simpl in Hx. destruct Hx as [-> | ->].
      * exists a, b, []. split; [done|]. split; [left|done].
      * exists b, a, []. split; [by apply permutations2_sym|].
        split; [left|done].
    + right. by exists a, b, s.
  - intros [?|(a & b & s & Hab & Hs & ->)]; [by left; left; right|].
    right. exists (a, b). split; [done|]. by exists s.
Qed.

Lemma elem_of_sprinkle (words : list pystr) (x : pystr) :
  x ∈ sprinkle words
  ↔ ∃ w, w ∈ words
         ∧ ((∃ suf, suf ∈ COMMON_SUFFIXES ∧ x = w ++ suf)
            ∨ (∃ pre, pre ∈ COMMON_PREFIXES ∧ x = pre ++ w)).
Proof.
  unfold sprinkle.
  rewrite (elem_of_foldl_grow _
    (fun w x => (∃ suf, suf ∈ COMMON_SUFFIXES ∧ x = w ++ suf)
                ∨ (∃ pre, pre ∈ COMMON_PREFIXES ∧ x = pre ++ w))).
  - rewrite elem_of_empty. naive_solver.
  - intros out w y. rewrite !elem_of_foldl_add. tauto.
Qed.

Lemma elem_of_append_years (pool years : gset pystr) (x : pystr) :
  x ∈ append_years pool years
  ↔ x ∈ pool
    ∨ ∃ w y, w ∈ pool ∧ y ∈ years ∧ (x = w ++ y ∨ x = y ++ w).
Proof.
  unfold append_years.
  rewrite (elem_of_foldl_grow _
    (fun w x => ∃ y, y ∈ years ∧ (x = w ++ y ∨ x = y ++ w))).
  - setoid_rewrite elem_of_elements. naive_solver.
  - intros out w z.
    rewrite (elem_of_foldl_grow _ (fun y x => x = w ++ y ∨ x = y ++ w)).
    + setoid_rewrite elem_of_sorted. setoid_rewrite elem_of_elements. done.
    + intros. rewrite !elem_of_union, !elem_of_singleton. tauto.
Qed.

End Combine.

(** ** The tokenizer *)

Section Tokenizer.




Lemma split_tokens_nil : split_tokens [] = [].
Proof. reflexivity. Qed.

Lemma dob_tokens_nil : dob_tokens [] = [].
Proof. reflexivity. Qed.

Lemma tokens_of_nil : tokens_of [] [] [] [] = [].
Proof. reflexivity. Qed.

End Tokenizer.

(** ** Years *)

Section Years.

Lemma elem_of_range a b z : z ∈ range a b ↔ (a ≤ z < b)%Z.
Proof.
  unfold range. rewrite elem_of_map.
  setoid_rewrite elem_of_seq. split.
  - intros (i & -> & Hi). lia.
  - intros Hz. exists (Z.to_nat (z - a)). lia.
Qed.

Lemma dec_digits_decimal fuel n acc :
  Forall (fun c => Unicode.isdecimal c = true) acc →
  Forall (fun c => Unicode.isdecimal c = true) (dec_digits fuel n acc).
Proof.
  revert n acc. induction fuel as [|fuel IH]; intros n acc Hacc; simpl; [done|].
  assert (Unicode.isdecimal (48 + n mod 10) = true) as Hd.
  { assert (n mod 10 < 10) by (by apply N.mod_upper_bound).
    generalize dependent (n mod 10). intros d Hd.
    unfold Unicode.isdecimal, Unicode.in_range.
    apply andb_true_iff. split; apply N.leb_le; lia. }
  destruct (n / 10 =? 0); [by constructor|].
  apply IH. by constructor.
Qed.

Lemma dec_digits_nonempty fuel n acc :
  fuel ≠ O → dec_digits fuel n acc ≠ [].
Proof.
  revert n acc. induction fuel as [|fuel IH]; intros n acc Hf; [done|].
  simpl. destruct (n / 10 =? 0); [done|].
  destruct fuel as [|fuel']; [done|]. by apply IH.
Qed.

(** A year of the range is rendered with decimal digits only. *)
Lemma str_of_int_decimal z :
  (0 ≤ z)%Z → Forall (fun c => Unicode.isdecimal c = true) (str_of_int z).
Proof.
  intros Hz. destruct z as [|p|p]; [| |lia];
    apply dec_digits_decimal; constructor.
Qed.

Lemma elem_of_year_range start end_ y :
  y ∈ year_range start end_
  ↔ ∃ z, (start ≤ z ≤ end_)%Z ∧ y = str_of_int z.
Proof.
  unfold year_range. rewrite elem_of_map.
  setoid_rewrite elem_of_range. split.
  - intros (z & -> & Hz). exists z. split; [lia|done].
  - intros (z & Hz & ->). exists z. split; [done|lia].
Qed.

Lemma elem_of_years_of now extra_years y :
  y ∈ years_of now extra_years
  ↔ y ∈ year_range 1990 (now + 1)
    ∨ (y ∈ split_tokens extra_years ∧ isdigit y = true).
Proof.
  unfold years_of. case_decide as Hex.
  - rewrite (elem_of_foldl_grow _ (fun t x => x = t ∧ isdigit t = true)).
    + rewrite elem_of_list_to_set. naive_solver.
    + intros out t x. destruct (isdigit t).
      * rewrite elem_of_union, elem_of_singleton. naive_solver.
      * naive_solver.
  - subst extra_years. rewrite split_tokens_nil.
    rewrite elem_of_list_to_set, elem_of_nil. tauto.
Qed.

End Years.

(** ** The assembler *)

Section Assembler.

Lemma elem_of_candidates now name pet dob keywords extra_years x :
  x ∈ candidates now name pet dob keywords extra_years
  ↔ x ∈ tokens_of name pet dob keywords
    ∨ x ∈ pool_of (tokens_of name pet dob keywords)
    ∨ ∃ w y, w ∈ pool_of (tokens_of name pet dob keywords)
             ∧ y ∈ years_of now extra_years
             ∧ (x = w ++ y ∨ x = y ++ w).
Proof.
  unfold candidates. fold (pool_of (tokens_of name pet dob keywords)).
  rewrite elem_of_union, elem_of_append_years, elem_of_list_to_set. tauto.
Qed.

Lemma elem_of_gen_wordlist now name pet dob keywords extra_years x :
  x ∈ gen_wordlist now name pet dob keywords extra_years
  ↔ x ∈ candidates now name pet dob keywords extra_years.
Proof. unfold gen_wordlist. by rewrite elem_of_sorted, elem_of_elements. Qed.

Lemma gen_wordlist_strict now name pet dob keywords extra_years :
  StronglySorted str_lt (gen_wordlist now name pet dob keywords extra_years).
Proof. apply sorted_strict, NoDup_elements. Qed.

Lemma length_gen_wordlist now name pet dob keywords extra_years :
  length (gen_wordlist now name pet dob keywords extra_years)
  = size (candidates now name pet dob keywords extra_years).
Proof. unfold gen_wordlist. by rewrite length_sorted. Qed.

(** With a positive maximum the cap is a prefix. *)
Lemma cmd_gen_take now name pet dob keywords years max :
  (0 < max)%Z →
  cmd_gen now name pet dob keywords years max
  = take (Z.to_nat max) (gen_wordlist now name pet dob keywords years).
Proof.
  intros Hmax. unfold cmd_gen, slice_to. case_decide as Hcut.
  - destruct (Z.leb_spec 0 max); [done|lia].
  - rewrite take_ge; [done|]. lia.
Qed.

(** Without a maximum, or with one the list does not exceed, nothing is
    cut. *)
Lemma cmd_gen_uncut now name pet dob keywords years max :
  max = 0%Z
  ∨ (Z.of_nat (length (gen_wordlist now name pet dob keywords years)) ≤ max)%Z →
  cmd_gen now name pet dob keywords years max
  = gen_wordlist now name pet dob keywords years.
Proof. intros Hmax. unfold cmd_gen. case_decide; [lia|done]. Qed.

Lemma pool_of_nil : pool_of [] = ∅.
Proof.
  unfold pool_of. simpl. rewrite elements_empty.
  change (mix []) with (∅ : gset pystr).
  rewrite elements_empty. change (sprinkle []) with (∅ : gset pystr).
  by rewrite union_empty_l_L.
Qed.

End Assembler.

(** ** Case mappings of ASCII strings *)

Section AsciiCase.

Ltac case_cmp :=
  repeat match goal with
  | |- context [ ?a <=? ?b ] => destruct (N.leb_spec a b)
  | |- context [ ?a <? ?b ] => destruct (N.ltb_spec a b)
  | |- context [ ?a =? ?b ] => destruct (N.eqb_spec a b)
  | H : context [ ?a <? ?b ] |- _ => destruct (N.ltb_spec a b)
  end; simpl in *.

Lemma tolower_ascii c :
  Unicode.is_ascii c = true →
  ∃ d, Unicode.tolower c = [d] ∧ Unicode.is_ascii d = true.
Proof.
  unfold Unicode.is_ascii, Unicode.tolower, Unicode.in_range. intros Hc.
  case_cmp; try done; try lia; eexists; (split; [done|]);
    apply N.ltb_lt; lia.
Qed.

Lemma toupper_ascii c :
  Unicode.is_ascii c = true → ∃ d, Unicode.toupper c = [d].
Proof.
  unfold Unicode.is_ascii, Unicode.toupper, Unicode.in_range. intros Hc.
  case_cmp; try done; try lia; by eexists.
Qed.

Lemma totitle_ascii c :
  Unicode.is_ascii c = true → ∃ d, Unicode.totitle c = [d].
Proof.
  intros Hc. unfold Unicode.totitle.
  destruct (N.eqb_spec c 223) as [->|_]; [done|]. by apply toupper_ascii.
Qed.

Lemma lower_ascii w :
  Forall (fun c => Unicode.is_ascii c = true) w →
  length (lower w) = length w
  ∧ Forall (fun c => Unicode.is_ascii c = true) (lower w).
Proof.
  induction 1 as [|c w Hc Hw [IHl IHa]]; [by split|].
  unfold lower in *. simpl.
  destruct (tolower_ascii c Hc) as (d & -> & Hd). simpl.
  split; [by rewrite IHl|by constructor].
Qed.

Lemma upper_ascii w :
  Forall (fun c => Unicode.is_ascii c = true) w →
  length (upper w) = length w.
Proof.
  induction 1 as [|c w Hc Hw IH]; [done|].
  unfold upper in *. simpl.
  destruct (toupper_ascii c Hc) as (d & ->). simpl. by rewrite IH.
Qed.

Lemma capitalize_ascii w :
  Forall (fun c => Unicode.is_ascii c = true) w →
  length (capitalize w) = length w.
Proof.
  destruct 1 as [|c w Hc Hw]; [done|]. simpl.
  destruct (totitle_ascii c Hc) as (d & ->). simpl.
  by destruct (lower_ascii w Hw) as [-> _].
Qed.

Lemma title_from_ascii previous_is_cased w :
  Forall (fun c => Unicode.is_ascii c = true) w →
  length (title_from previous_is_cased w) = length w.
Proof.
  intros Hw. revert previous_is_cased.
  induction Hw as [|c w Hc Hw IH]; intros previous_is_cased; [done|].
  simpl. rewrite length_app, IH.
  destruct (tolower_ascii c Hc) as (d & -> & _).
  destruct (totitle_ascii c Hc) as (d' & ->). by destruct previous_is_cased.
Qed.

End AsciiCase.

(** ** The candidates as a list *)

Section Enumeration.

(** On a list without duplicates the combiner depends on the elements
    only: its result is made of the leet variants of the non-empty words
    and of the joins of two different non-empty words. *)
Lemma elem_of_mix_NoDup (words : list pystr) (x : pystr) :
  NoDup words →
  x ∈ mix words
  ↔ (∃ w, w ∈ words ∧ w ≠ [] ∧ x ∈ l33tify w)
    ∨ (∃ a b s, a ∈ words ∧ b ∈ words ∧ a ≠ [] ∧ b ≠ [] ∧ a ≠ b
                ∧ s ∈ seps ∧ x = a ++ s ++ b).
Proof.
  intros Hnd. rewrite elem_of_mix.
  assert (NoDup (filter (fun w : pystr => w ≠ []) words)) as Hnd'
    by by apply NoDup_filter.
  split.
  - intros [(w & [? ?]%list_elem_of_filter & ?)|(a & b & s & Hab & ? & ->)].
    + left. by exists w.
    + apply (permutations2_NoDup _ _ _ Hnd') in Hab as (Ha & Hb & ?).
      apply list_elem_of_filter in Ha as [? ?].
      apply list_elem_of_filter in Hb as [? ?].
      right. by exists a, b, s.
  - intros [(w & ? & ? & ?)|(a & b & s & ? & ? & ? & ? & ? & ? & ->)].
    + left. exists w. by rewrite list_elem_of_filter.
    + right. exists a, b, s. split; [|done].
      apply permutations2_intro; [by apply list_elem_of_filter..|done].
Qed.

Lemma elem_of_l33tify_list word x : x ∈ l33tify_list word ↔ x ∈ l33tify word.
Proof.
  unfold l33tify_list. rewrite elem_of_l33tify, <- leet_combos_spec.
  rewrite elem_of_app, elem_of_map, !elem_of_cons, elem_of_nil.
  naive_solver.
Qed.

Lemma elem_of_mix_list words x : x ∈ mix_list words ↔ x ∈ mix words.
Proof.
  unfold mix_list. rewrite elem_of_mix, elem_of_app, !elem_of_flat_map.
  setoid_rewrite elem_of_l33tify_list. setoid_rewrite elem_of_map. split.
  - intros [(w & ? & ?)|([a b] & (s & -> & ?) & ?)]; [left; by exists w|].
    right. by exists a, b, s.
  - intros [(w & ? & ?)|(a & b & s & ? & ? & ->)]; [left; by exists w|].
    right. exists (a, b). split; [by exists s|done].
Qed.

Lemma elem_of_sprinkle_list words x :
  x ∈ sprinkle_list words ↔ x ∈ sprinkle words.
Proof.
  unfold sprinkle_list. rewrite elem_of_sprinkle, elem_of_flat_map.
  setoid_rewrite elem_of_app. setoid_rewrite elem_of_map. naive_solver.
Qed.

Lemma sprinkle_ext (l k : list pystr) :
  (∀ w, w ∈ l ↔ w ∈ k) → ∀ x, x ∈ sprinkle l ↔ x ∈ sprinkle k.
Proof. intros Hlk x. rewrite !elem_of_sprinkle. by setoid_rewrite Hlk. Qed.

Lemma mix_ext (l k : list pystr) :
  NoDup l → NoDup k → (∀ w, w ∈ l ↔ w ∈ k) → ∀ x, x ∈ mix l ↔ x ∈ mix k.
Proof.
  intros Hl Hk Hlk x. rewrite !elem_of_mix_NoDup by done.
  by setoid_rewrite Hlk.
Qed.

Lemma elem_of_pool_list tokens x : x ∈ pool_list tokens ↔ x ∈ pool_of tokens.
Proof.
  unfold pool_list, pool_of.
  assert (∀ y, y ∈ mix_list (remove_dups tokens)
               ↔ y ∈ mix (elements (list_to_set tokens : gset pystr))) as Hmix.
  { intros y. rewrite elem_of_mix_list.
    apply mix_ext; [apply NoDup_remove_dups|apply NoDup_elements|].
    intros w. by rewrite elem_of_remove_dups, elem_of_elements,
      elem_of_list_to_set. }
  rewrite elem_of_app, elem_of_union, Hmix, elem_of_sprinkle_list.
  rewrite (sprinkle_ext _
    (elements (mix (elements (list_to_set tokens : gset pystr))))); [done|].
  intros w. by rewrite Hmix, elem_of_elements.
Qed.

Lemma elem_of_years_list now extra_years y :
  y ∈ years_list now extra_years ↔ y ∈ years_of now extra_years.
Proof.
  unfold years_list.
  by rewrite elem_of_years_of, elem_of_app, elem_of_List_filter.
Qed.

Lemma elem_of_candidates_list now name pet dob keywords extra_years x :
  x ∈ candidates_list now name pet dob keywords extra_years
  ↔ x ∈ candidates now name pet dob keywords extra_years.
Proof.
  unfold candidates_list. rewrite elem_of_candidates, !elem_of_app.
  rewrite elem_of_pool_list, elem_of_flat_map.
  setoid_rewrite elem_of_flat_map. setoid_rewrite elem_of_pool_list.
  setoid_rewrite elem_of_years_list.
  setoid_rewrite elem_of_cons. setoid_rewrite elem_of_cons.
  setoid_rewrite elem_of_nil. naive_solver.
Qed.

(** The candidates grow with the current year. *)
Lemma candidates_mono now now' name pet dob keywords extra_years x :
  (now ≤ now')%Z →
  x ∈ candidates now name pet dob keywords extra_years →
  x ∈ candidates now' name pet dob keywords extra_years.
Proof.
  intros Hle. rewrite !elem_of_candidates.
  intros [?|[?|(w & y & Hw & Hy & Hx)]]; [tauto..|].
  right; right. exists w, y. split; [done|]. split; [|done].
  apply elem_of_years_of. apply elem_of_years_of in Hy as [Hy|Hy]; [|by right].
  left. apply elem_of_year_range.
  apply elem_of_year_range in Hy as (z & Hz & ->). exists z. split; [lia|done].
Qed.

End Enumeration.

(** ** Positions in the sorted list *)

Section Positions.

Lemma str_ltb_lt a b : str_ltb a b = true ↔ str_lt a b.
Proof.
  unfold str_ltb, str_lt, str_le. rewrite negb_true_iff. split.
  - intros Hba. split.
    + destruct (str_leb_total a b) as [?|?]; [done|congruence].
    + intros ->. by rewrite str_leb_refl in Hba.
  - intros [Hab Hne]. destruct (str_leb b a) eqn:Hba; [|done].
    destruct Hne. by apply str_leb_antisym.
Qed.

#[global] Instance str_lt_trans : Transitive str_lt.
Proof. intros a b c Hab [Hbc _]. by eapply str_lt_le_trans. Qed.

Lemma StronglySorted_lt_NoDup (l : list pystr) :
  StronglySorted str_lt l → NoDup l.
Proof.
  induction 1 as [|x l Hl IH Hx]; constructor; [|done].
  intros Hin. rewrite Forall_forall in Hx.
  by apply (str_lt_irrefl x), Hx.
Qed.

Lemma increasing_Sorted l : increasing l = true → Sorted str_lt l.
Proof.
  induction l as [|x l IH]; [constructor|].
  simpl. destruct l as [|y l]; [by repeat constructor|].
  intros [Hxy Hl]%andb_true_iff. constructor; [by apply IH|].
  constructor. by apply str_ltb_lt.
Qed.

Lemma increasing_NoDup l : increasing l = true → NoDup l.
Proof.
  intros Hl. apply StronglySorted_lt_NoDup, Sorted_StronglySorted; [apply _|].
  by apply increasing_Sorted.
Qed.

Lemma elem_of_uniq l x : x ∈ uniq l → x ∈ l.
Proof.
  induction l as [|y l IH]; [done|]. simpl.
  destruct l as [|z l]; [done|].
  destruct (str_ltb y z).
  - intros [->|Hx]%elem_of_cons; [left|right; by apply IH].
  - intros Hx. right. by apply IH.
Qed.

Lemma count_below_length x l :
  count_below x l
  = N.of_nat (length (List.filter (fun c => str_ltb c x) l)).
Proof.
  induction l as [|c l IH]; [done|]. simpl.
  destruct (str_ltb c x); simpl; lia.
Qed.

(** Distinct entries of a list that are below [x] are counted by
    [count_below]. *)
Lemma count_below_ge x (l k : list pystr) :
  NoDup k → (∀ c, c ∈ k → c ∈ l ∧ str_lt c x) →
  N.of_nat (length k) ≤ count_below x l.
Proof.
  intros Hnd Hk. rewrite count_below_length.
  assert (length k ≤ length (List.filter (fun c => str_ltb c x) l))%nat;
    [|lia].
  apply submseteq_length, NoDup_submseteq; [done|].
  intros c Hc. apply elem_of_List_filter. destruct (Hk c Hc) as [? ?].
  split; [done|]. by apply str_ltb_lt.
Qed.

(** A string at position [i] of a list in strict order has exactly the
    first [i] entries below it. *)
Lemma StronglySorted_lookup_split (l : list pystr) i x :
  StronglySorted str_lt l → l !! i = Some x →
  length (take i l) = i
  ∧ (∀ c, c ∈ take i l → str_lt c x)
  ∧ (∀ c, c ∈ drop (S i) l → str_lt x c).
Proof.
  intros Hl Hi. pose proof (lookup_lt_Some _ _ _ Hi) as Hlen.
  rewrite <- (take_drop_middle l i x Hi) in Hl.
  split; [rewrite length_take; lia|]. split.
  - intros c Hc.
    apply (StronglySorted_app_1_elem_of str_lt _ _ c x) in Hl; [done..|left].
  - intros c Hc. apply StronglySorted_app_1_r in Hl.
    apply StronglySorted_inv in Hl as [_ Hl].
    rewrite Forall_forall in Hl. by apply Hl.
Qed.

(** An element with fewer than [M] entries of an enumeration below it is
    among the first [M] strings of the sorted set. *)
Lemma sorted_position_lt (C : gset pystr) (L : list pystr) x (M : N) :
  (∀ c, c ∈ C → c ∈ L) → x ∈ C → count_below x L < M →
  x ∈ take (N.to_nat M) (sorted (elements C)).
Proof.
  intros HL Hx Hcount.
  pose proof (sorted_strict (elements C) (NoDup_elements C)) as Hs.
  assert (x ∈ sorted (elements C)) as Hin
    by by rewrite elem_of_sorted, elem_of_elements.
  apply list_elem_of_lookup in Hin as [i Hi].
  destruct (StronglySorted_lookup_split _ _ _ Hs Hi) as (Hlen & Hlt & _).
  apply elem_of_take. exists i. split; [done|].
  assert (N.of_nat (length (take i (sorted (elements C))))
          ≤ count_below x L) as Hle.
  { apply count_below_ge.
    - pose proof (StronglySorted_lt_NoDup _ Hs) as Hnd.
      rewrite <- (take_drop i) in Hnd. by apply NoDup_app in Hnd as (? & _ & _).
    - intros c Hc. split; [|by apply Hlt]. apply HL.
      apply elem_of_elements, elem_of_sorted.
      rewrite <- (take_drop i). apply elem_of_app. by left. }
  lia.
Qed.

(** An element with [M] distinct strings of the set below it is not among
    the first [M] strings of the sorted set. *)
Lemma sorted_position_ge (C : gset pystr) (K : list pystr) x (M : nat) :
  NoDup K → (∀ c, c ∈ K → c ∈ C ∧ str_lt c x) → (M ≤ length K)%nat →
  x ∉ take M (sorted (elements C)).
Proof.
  intros Hnd HK HM Hx.
  pose proof (sorted_strict (elements C) (NoDup_elements C)) as Hs.
  apply elem_of_take in Hx as (i & Hi & HiM).
  destruct (StronglySorted_lookup_split _ _ _ Hs Hi) as (Hlen & _ & Hgt).
  assert (K ⊆+ take i (sorted (elements C))) as Hsub.
  { apply NoDup_submseteq; [done|]. intros c Hc.
    destruct (HK c Hc) as [HcC Hcx].
    assert (c ∈ sorted (elements C)) as Hin
      by by rewrite elem_of_sorted, elem_of_elements.
    rewrite <- (take_drop i) in Hin. apply elem_of_app in Hin as [?|Hin]; [done|].
    rewrite (drop_S _ x i Hi) in Hin.
    apply elem_of_cons in Hin as [->|Hin].
    - by destruct (str_lt_irrefl x).
    - destruct (str_le_not_lt x c); [apply (Hgt c Hin)|done]. }
  apply submseteq_length in Hsub. lia.
Qed.

End Positions.

(** Decides [spec_cross_product] on closed strings. *)
Ltac cross_product :=
  unfold spec_cross_product;
  match goal with
  | |- Forall2 _ ?w ?x =>
      let w' := eval vm_compute in w in
      let x' := eval vm_compute in x in
      change (Forall2 spec_alternative w' x')
  end;
  repeat (constructor 2; [(left; reflexivity) + (right; reflexivity)|]);
  constructor 1.

(** * The properties of the specification *)

(** C1. For a configured maximum [M > 0] the lines written have length
    [min M (number of unique candidates)], they are the first [M] entries
    of the sorted, deduplicated candidate set, they are in strictly
    increasing order, and every candidate left out is above every line
    written: the cut keeps the lexicographically smallest strings. *)
Theorem C1_cap_keeps_smallest now name pet dob keywords years (M : Z) :
  (0 < M)%Z →
  let out := cmd_gen now name pet dob keywords years M in
  let all := candidates now name pet dob keywords years in
  length out = Nat.min (Z.to_nat M) (size all)
  ∧ out = take (Z.to_nat M) (sorted (elements all))
  ∧ StronglySorted str_lt out
  ∧ (∀ x, x ∈ out → x ∈ all)
  ∧ (∀ x y, x ∈ out → y ∈ all → y ∉ out → str_lt x y).
Proof.
  intros HM out all. unfold out. rewrite cmd_gen_take by done.
  pose proof (gen_wordlist_strict now name pet dob keywords years) as Hs.
  split; [|split; [|split; [|split]]].
  - by rewrite length_take, length_gen_wordlist.
  - done.
  - by apply StronglySorted_take.
  - intros x Hx%elem_of_take. destruct Hx as (i & Hi & _).
    apply elem_of_gen_wordlist. by eapply list_elem_of_lookup_2.
  - intros x y Hx Hy Hny.
    eapply StronglySorted_take_lt; [exact Hs|exact Hx| |exact Hny].
    by apply elem_of_gen_wordlist.
Qed.

Lemma C1_cap_keeps_smallest_witness :
  let out := cmd_gen 2025 (lit "John") [] (lit "1999-05-01") [] [] 3 in
  let all := candidates 2025 (lit "John") [] (lit "1999-05-01") [] [] in
  length out = Nat.min (Z.to_nat 3) (size all)
  ∧ out = take (Z.to_nat 3) (sorted (elements all))
  ∧ StronglySorted str_lt out
  ∧ (∀ x, x ∈ out → x ∈ all)
  ∧ (∀ x y, x ∈ out → y ∈ all → y ∉ out → str_lt x y).
Proof. apply C1_cap_keeps_smallest. lia. Defined.



(** C4, as stated, fails: for the distinct tokens 1 and 11 (the tokens of
    the hint [1 11]) the result of the combiner contains 1 followed by 1,
    which is the token 11 itself, a leet variant of its own. *)
Lemma C4_self_concatenation_counterexample :
  split_tokens (lit "1 11") = [lit "1"; lit "11"]
  ∧ lit "1" ≠ lit "11"
  ∧ lit "1" ++ lit "1" ∈ mix [lit "1"; lit "11"].
Proof.
  split; [by vm_compute|]. split; [by vm_compute|].
  apply elem_of_mix. left. exists (lit "11"). split.
  - apply list_elem_of_filter. split; [by vm_compute|]. right. left.
  - apply elem_of_l33tify. left. cross_product.
Qed.

(** C4, amended. For non-empty distinct tokens [a] and [b] the combiner
    applied to [[a; b]] contains [a ++ s ++ b] and [b ++ s ++ a] for every
    separator [s] of the list (so [a ++ b], [b ++ a] and [a] joined to [b]
    by a period); the only pairs it joins are [(a, b)] and [(b, a)], and
    its result is exactly the leet variants of [a] and of [b] and those
    joins, so that [a ++ a] is in it only when it is one of them. *)
Theorem C4_mix_of_two_tokens (a b : pystr) :
  a ≠ [] → b ≠ [] → a ≠ b →
  (∀ s, s ∈ seps → a ++ s ++ b ∈ mix [a; b] ∧ b ++ s ++ a ∈ mix [a; b])
  ∧ a ++ b ∈ mix [a; b]
  ∧ b ++ a ∈ mix [a; b]
  ∧ a ++ lit "." ++ b ∈ mix [a; b]
  ∧ permutations2 [a; b] = [(a, b); (b, a)]
  ∧ (∀ x, x ∈ mix [a; b]
          ↔ x ∈ l33tify a ∨ x ∈ l33tify b
            ∨ ∃ s, s ∈ seps ∧ (x = a ++ s ++ b ∨ x = b ++ s ++ a)).
Proof.
  intros Ha Hb _.
  assert (filter (fun w : pystr => w ≠ []) [a; b] = [a; b]) as Hf.
  { rewrite filter_cons_True by done. f_equal.
    by rewrite filter_cons_True by done. }
  assert (∀ x, x ∈ mix [a; b]
          ↔ x ∈ l33tify a ∨ x ∈ l33tify b
            ∨ ∃ s, s ∈ seps ∧ (x = a ++ s ++ b ∨ x = b ++ s ++ a)) as Hmix.
  { intros x. rewrite elem_of_mix, Hf.
    change (permutations2 [a; b]) with [(a, b); (b, a)]. split.
    - intros [(w & Hw & Hx)|(a' & b' & s & Hab & Hs & ->)].
      + apply elem_of_cons in Hw as [->|Hw]; [by left|].
        apply list_elem_of_singleton in Hw as ->. by right; left.
      + right; right. exists s. split; [done|].
        apply elem_of_cons in Hab as [[= -> ->]|Hab]; [by left|].
        apply list_elem_of_singleton in Hab as [= -> ->]. by right.
    - intros [Hx|[Hx|(s & Hs & [-> | ->])]].
      + left. exists a. split; [left|done].
      + left. exists b. split; [right; left|done].
      + right. exists a, b, s. split; [left|done].
      + right. exists b, a, s. split; [right; left|done]. }
  assert (∀ s, s ∈ seps → a ++ s ++ b ∈ mix [a; b] ∧ b ++ s ++ a ∈ mix [a; b])
    as Hseps.
  { intros s Hs. split; apply Hmix; right; right; exists s; auto. }
  split; [done|].
  split; [apply (Hseps []); left|].
  split; [apply (Hseps []); left|].
  split; [apply (Hseps (lit ".")); right; left|].
  done.
Qed.

Lemma C4_mix_of_two_tokens_witness :
  (∀ s, s ∈ seps →
        lit "ab" ++ s ++ lit "cd" ∈ mix [lit "ab"; lit "cd"]
        ∧ lit "cd" ++ s ++ lit "ab" ∈ mix [lit "ab"; lit "cd"])
  ∧ lit "ab" ++ lit "cd" ∈ mix [lit "ab"; lit "cd"]
  ∧ lit "cd" ++ lit "ab" ∈ mix [lit "ab"; lit "cd"]
  ∧ lit "ab" ++ lit "." ++ lit "cd" ∈ mix [lit "ab"; lit "cd"]
  ∧ permutations2 [lit "ab"; lit "cd"]
    = [(lit "ab", lit "cd"); (lit "cd", lit "ab")]
  ∧ (∀ x, x ∈ mix [lit "ab"; lit "cd"]
          ↔ x ∈ l33tify (lit "ab") ∨ x ∈ l33tify (lit "cd")
            ∨ ∃ s, s ∈ seps
                   ∧ (x = lit "ab" ++ s ++ lit "cd"
                      ∨ x = lit "cd" ++ s ++ lit "ab")).
Proof. apply C4_mix_of_two_tokens; by vm_compute. Defined.

(** C5. Every raw token of the hints (of the name, the pet, the keywords,
    and the numeric fragments of the date of birth) is, unchanged, an
    entry of the wordlist, and is written by [cmd_gen] for every maximum
    that is absent or beyond the position of the token. *)
Theorem C5_raw_tokens_survive now name pet dob keywords years (t : pystr) :
  t ∈ split_tokens name ∨ t ∈ split_tokens pet
  ∨ t ∈ split_tokens keywords ∨ t ∈ dob_tokens dob →
  ∃ i : nat,
    gen_wordlist now name pet dob keywords years !! i = Some t
    ∧ ∀ max : Z,
        max = 0%Z ∨ (Z.of_nat i < max)%Z →
        cmd_gen now name pet dob keywords years max !! i = Some t.
Proof.
  intros Ht.
  assert (t ∈ gen_wordlist now name pet dob keywords years) as Hin.
  { apply elem_of_gen_wordlist, elem_of_candidates. left.
    unfold tokens_of. rewrite !elem_of_app. tauto. }
  apply list_elem_of_lookup in Hin as [i Hi]. exists i. split; [done|].
  intros max Hmax. unfold cmd_gen, slice_to. case_decide as Hcut; [|done].
  destruct (Z.leb_spec 0 max); [|lia].
  rewrite lookup_take_lt; [done|lia].
Qed.

Lemma C5_raw_tokens_survive_witness :
  ∃ i : nat,
    gen_wordlist 2025 (lit "John") [] (lit "1999-05-01") [] [] !! i
    = Some (lit "John")
    ∧ ∀ max : Z,
        max = 0%Z ∨ (Z.of_nat i < max)%Z →
        cmd_gen 2025 (lit "John") [] (lit "1999-05-01") [] [] max !! i
        = Some (lit "John").
Proof. apply C5_raw_tokens_survive. left. vm_compute. left. Defined.

Lemma year_range_isdigit start end_ y :
  (0 ≤ start)%Z → y ∈ year_range start end_ → isdigit y = true.
Proof.
  intros Hs (z & Hz & ->)%elem_of_year_range.
  assert (0 ≤ z)%Z as Hz0 by lia.
  pose proof (str_of_int_decimal z Hz0) as Hd.
  assert (str_of_int z ≠ []) as Hne.
  { destruct z; try lia; by apply dec_digits_nonempty. }
  unfold isdigit. destruct (str_of_int z) as [|c s]; [done|].
  apply forallb_forall. intros d Hin%list_elem_of_In.
  rewrite Forall_forall in Hd. specialize (Hd d Hin).
  unfold Unicode.isdigit. unfold Unicode.isdecimal in Hd. by rewrite Hd.
Qed.




(** C7. With all five hints empty the wordlist is empty, and so is what
    [cmd_gen] writes for any maximum; the functions are total, so this is
    a result and not an error, whatever the current year. *)
Theorem C7_empty_hints_empty_wordlist now :
  gen_wordlist now [] [] [] [] [] = []
  ∧ ∀ max, cmd_gen now [] [] [] [] [] max = [].
Proof.
  assert (gen_wordlist now [] [] [] [] [] = []) as Hgen.
  { apply elem_of_nil_inv. intros x.
    rewrite elem_of_gen_wordlist, elem_of_candidates.
    rewrite tokens_of_nil, pool_of_nil, elem_of_nil.
    setoid_rewrite elem_of_empty. naive_solver. }
  split; [done|]. intros max. unfold cmd_gen. rewrite Hgen. simpl.
  case_decide; [|done]. unfold slice_to.
  destruct (0 <=? max)%Z; apply take_nil.
Qed.


(** C9, as stated, fails: the word made of the sharp s alone (U+00DF) has
    one character, and its upper-case form, an element of the result of
    [l33tify], has two. *)
Lemma C9_sharp_s_counterexample :
  [83; 83] ∈ l33tify [223] ∧ length [83; 83] ≠ length [223].
Proof.
  split; [|by vm_compute].
  apply elem_of_l33tify. right; right; left. by vm_compute.
Qed.

(** C9, amended. For every word made of ASCII characters, every string of
    the result of [l33tify] has the length of the word. *)
Theorem C9_l33tify_keeps_ascii_length (word x : pystr) :
  Forall (fun c => Unicode.is_ascii c = true) word →
  x ∈ l33tify word → length x = length word.
Proof.
  intros Hw Hx. destruct (lower_ascii word Hw) as [Hlen Hascii].
  apply elem_of_l33tify in Hx as [Hx|[->|[->| ->]]].
  - by rewrite (spec_cross_product_length _ _ Hx).
  - by rewrite capitalize_ascii.
  - by rewrite upper_ascii.
  - unfold title. by rewrite title_from_ascii.
Qed.

Lemma C9_l33tify_keeps_ascii_length_witness :
  length (lit "j0hn") = length (lit "John").
Proof.
  apply C9_l33tify_keeps_ascii_length.
  - vm_compute. repeat constructor.
  - apply elem_of_l33tify. left. cross_product.
Defined.

(** C10. With the name, the pet, the date of birth and the keywords empty
    the wordlist is empty for every extra-years input and every current
    year; in general an entry of the wordlist is a raw token, a candidate
    of the pool built from the tokens, or such a candidate with a year
    before or after it, and without tokens the pool is empty. *)
Theorem C10_years_never_stand_alone now extra_years :
  gen_wordlist now [] [] [] [] extra_years = []
  ∧ pool_of [] = ∅
  ∧ ∀ name pet dob keywords x,
      x ∈ gen_wordlist now name pet dob keywords extra_years
      ↔ x ∈ tokens_of name pet dob keywords
        ∨ x ∈ pool_of (tokens_of name pet dob keywords)
        ∨ ∃ w y, w ∈ pool_of (tokens_of name pet dob keywords)
                 ∧ y ∈ years_of now extra_years
                 ∧ (x = w ++ y ∨ x = y ++ w).
Proof.
  split; [|split; [apply pool_of_nil|]].
  - apply elem_of_nil_inv. intros x.
    rewrite elem_of_gen_wordlist, elem_of_candidates.
    rewrite tokens_of_nil, pool_of_nil, elem_of_nil.
    setoid_rewrite elem_of_empty. naive_solver.
  - intros. by rewrite elem_of_gen_wordlist, elem_of_candidates.
Qed.

(** ** The end-to-end example *)

Section Example.

Lemma elem_of_mix_tokens (tokens : list pystr) (x : pystr) :
  x ∈ mix (elements (list_to_set tokens : gset pystr))
  ↔ (∃ w, w ∈ tokens ∧ w ≠ [] ∧ x ∈ l33tify w)
    ∨ (∃ a b s, a ∈ tokens ∧ b ∈ tokens ∧ a ≠ [] ∧ b ≠ [] ∧ a ≠ b
                ∧ s ∈ seps ∧ x = a ++ s ++ b).
Proof.
  rewrite elem_of_mix_NoDup by apply NoDup_elements.
  setoid_rewrite elem_of_elements. by setoid_rewrite elem_of_list_to_set.
Qed.

Lemma elem_of_pool_of (tokens : list pystr) (x : pystr) :
  x ∈ pool_of tokens
  ↔ x ∈ mix (elements (list_to_set tokens : gset pystr))
    ∨ ∃ w, w ∈ mix (elements (list_to_set tokens : gset pystr))
           ∧ ((∃ suf, suf ∈ COMMON_SUFFIXES ∧ x = w ++ suf)
              ∨ (∃ pre, pre ∈ COMMON_PREFIXES ∧ x = pre ++ w)).
Proof.
  unfold pool_of. rewrite elem_of_union, elem_of_sprinkle.
  by setoid_rewrite elem_of_elements.
Qed.

Lemma example_tokens :
  tokens_of (lit "John") [] (lit "1999-05-01") []
  = [lit "John"; lit "1999"; lit "05"; lit "01"; lit "99"].
Proof. by vm_compute. Qed.

(** The leet variants of the name are candidates of the pool. *)
Lemma example_pool_variant x :
  spec_cross_product (lit "john") x →
  x ∈ pool_of (tokens_of (lit "John") [] (lit "1999-05-01") []).
Proof.
  intros Hx. rewrite example_tokens. apply elem_of_pool_of. left.
  apply elem_of_mix_tokens. left. exists (lit "John").
  split; [left|]. split; [done|]. apply elem_of_l33tify. by left.
Qed.

(** So are two different tokens joined by a separator. *)
Lemma example_pool_join a b s :
  a ∈ [lit "John"; lit "1999"; lit "05"; lit "01"; lit "99"] →
  b ∈ [lit "John"; lit "1999"; lit "05"; lit "01"; lit "99"] →
  a ≠ b → s ∈ seps →
  a ++ s ++ b ∈ mix (elements (list_to_set
    (tokens_of (lit "John") [] (lit "1999-05-01") []) : gset pystr)).
Proof.
  intros Ha Hb Hab Hs. rewrite example_tokens.
  apply elem_of_mix_tokens. right. exists a, b, s.
  assert (∀ t, t ∈ [lit "John"; lit "1999"; lit "05"; lit "01"; lit "99"] →
               t ≠ []) as Hne.
  { intros t Ht. rewrite !elem_of_cons, elem_of_nil in Ht.
    destruct Ht as [->|[->|[->|[->|[->|[]]]]]]; by vm_compute. }
  repeat (split; [by auto|]). done.
Qed.

Lemma example_below_john_check :
  let below := example_below_john in
  increasing below && (100000 <=? N.of_nat (length below)) = true.
Proof. vm_compute. reflexivity. Qed.

Lemma example_below_john_count :
  increasing example_below_john = true
  ∧ (100000 <=? N.of_nat (length example_below_john)) = true.
Proof.
  pose proof example_below_john_check as Hcheck. cbv zeta in Hcheck.
  by apply andb_true_iff in Hcheck.
Qed.

Lemma example_below_john_NoDup : NoDup example_below_john.
Proof. apply increasing_NoDup. exact (proj1 example_below_john_count). Qed.

Lemma example_below_john_length :
  (Z.to_nat 100000 ≤ length example_below_john)%nat.
Proof.
  destruct example_below_john_count as [_ Hlen].
  apply N.leb_le in Hlen. lia.
Qed.

Lemma example_below_john_elem c :
  c ∈ example_below_john →
  c ∈ candidates 2016 (lit "John") [] (lit "1999-05-01") [] []
  ∧ str_lt c (lit "john").
Proof.
  unfold example_below_john. intros Hc.
  apply (elem_of_uniq _ c) in Hc.
  apply (proj1 (elem_of_sorted _ c)) in Hc.
  apply (proj1 (elem_of_List_filter _ _ c)) in Hc.
  destruct Hc as [Hc Hlt].
  split; [by apply elem_of_candidates_list|by apply str_ltb_lt].
Qed.

#[local] Opaque example_below_john.

(** From the year 2016 on, more than 100000 candidates of the example
    sort before [john]: a maximum of 100000 cuts it out. *)
Lemma example_john_cut now :
  (2016 ≤ now)%Z →
  lit "john" ∉ cmd_gen now (lit "John") [] (lit "1999-05-01") [] [] 100000.
Proof.
  intros Hnow. rewrite cmd_gen_take by done. unfold gen_wordlist.
  apply (sorted_position_ge _ example_below_john).
  - apply example_below_john_NoDup.
  - intros c Hc. apply example_below_john_elem in Hc as [Hc Hlt].
    split; [|done]. by apply (candidates_mono 2016).
  - apply example_below_john_length.
Qed.

Lemma example_candidates_2025_check :
  (count_below (lit "!01-05") example_candidates_2025 <? 100000) = true.
Proof. vm_compute. reflexivity. Qed.

Lemma example_candidates_2025_elem c :
  c ∈ candidates 2025 (lit "John") [] (lit "1999-05-01") [] [] →
  c ∈ example_candidates_2025.
Proof.
  intros Hc. unfold example_candidates_2025.
  exact (proj2 (elem_of_candidates_list _ _ _ _ _ _ c) Hc).
Qed.

#[local] Opaque example_candidates_2025.

Lemma example_hyphen_candidate now :
  lit "!01-05" ∈ candidates now (lit "John") [] (lit "1999-05-01") [] [].
Proof.
  apply elem_of_candidates. right; left. apply elem_of_pool_of. right.
  exists (lit "01-05"). split.
  - apply (example_pool_join (lit "01") (lit "05") (lit "-")).
    + do 3 right. left.
    + do 2 right. left.
    + by vm_compute.
    + do 3 right. left.
  - right. exists (lit "!"). split; [left|reflexivity].
Qed.

(** In the year 2025 a string with a hyphen is among the first 100000
    entries. *)
Lemma example_hyphen_kept :
  lit "!01-05"
  ∈ cmd_gen 2025 (lit "John") [] (lit "1999-05-01") [] [] 100000.
Proof.
  rewrite cmd_gen_take by reflexivity. unfold gen_wordlist.
  apply (sorted_position_lt _ example_candidates_2025 _ 100000).
  - exact example_candidates_2025_elem.
  - exact (example_hyphen_candidate 2025).
  - apply N.ltb_lt. exact example_candidates_2025_check.
Qed.

End Example.

(** C2, as stated, fails. In the year 2025 the full list of the example
    has more than 100000 entries below [john], so that the maximum of
    100000 cuts [john] out; and the entries kept include a string with a
    hyphen, the separator of the date of birth, which the combiner and the
    affixer put there. *)
Lemma C2_example_counterexample :
  (lit "john" ∉ cmd_gen 2025 (lit "John") [] (lit "1999-05-01") [] [] 100000)
  ∧ lit "!01-05" ∈ cmd_gen 2025 (lit "John") [] (lit "1999-05-01") [] [] 100000
  ∧ 45 ∈ lit "!01-05"
  ∧ 45 ∈ lit "1999-05-01".
Proof.
  split; [apply example_john_cut; lia|].
  split; [apply example_hyphen_kept|].
  split; [do 3 right; left|do 4 right; left].
Qed.

(** The entries of the full list of the example. *)
Lemma example_wordlist (now : Z) :
  (1998 ≤ now)%Z →
  let out := gen_wordlist now (lit "John") [] (lit "1999-05-01") [] [] in
  lit "john" ∈ out ∧ lit "1999" ∈ out ∧ lit "99" ∈ out ∧ lit "j0hn" ∈ out
  ∧ lit "john1999" ∈ out ∧ lit "John-1999" ∈ out.
Proof.
  intros Hnow out. unfold out.
  assert (lit "john"
          ∈ pool_of (tokens_of (lit "John") [] (lit "1999-05-01") []))
    as Hjohn by (apply example_pool_variant; cross_product).
  split; [|split; [|split; [|split; [|split]]]].
  - apply elem_of_gen_wordlist, elem_of_candidates. right; left. exact Hjohn.
  - apply elem_of_gen_wordlist, elem_of_candidates. left.
    rewrite example_tokens. right; left.
  - apply elem_of_gen_wordlist, elem_of_candidates. left.
    rewrite example_tokens. do 4 right; left.
  - apply elem_of_gen_wordlist, elem_of_candidates. right; left.
    apply example_pool_variant. cross_product.
  - apply elem_of_gen_wordlist, elem_of_candidates. right; right.
    exists (lit "john"), (lit "1999"). split; [exact Hjohn|].
    split; [|left; reflexivity]. apply elem_of_years_of. left.
    apply elem_of_year_range. exists 1999%Z. split; [lia|reflexivity].
  - apply elem_of_gen_wordlist, elem_of_candidates. right; left.
    apply elem_of_pool_of. left.
    apply (example_pool_join (lit "John") (lit "1999") (lit "-")).
    + left.
    + right; left.
    + intros Hne. discriminate Hne.
    + do 3 right; left.
Qed.

Lemma example_tokens_clean :
  Forall (Forall (fun c => is_separator c = false))
         (tokens_of (lit "John") [] (lit "1999-05-01") []).
Proof. rewrite example_tokens. vm_compute. repeat constructor. Qed.

(** C2, amended. For the hints of the example and a current year of 1998
    or later, when the maximum is absent or not below the length of the
    list, the wordlist includes [john], [1999], [99], [j0hn] and
    [john1999]; the raw tokens are [John], [1999], [05], [01] and [99], none
    of which has a separator character; and the wordlist includes the
    tokens joined by the separators of the combiner, such as
    [John-1999]. *)
Theorem C2_example_without_cut (now max : Z) :
  (1998 ≤ now)%Z →
  max = 0%Z
  ∨ (Z.of_nat (length (gen_wordlist now (lit "John") [] (lit "1999-05-01")
                         [] [])) ≤ max)%Z →
  let out := cmd_gen now (lit "John") [] (lit "1999-05-01") [] [] max in
  (lit "john" ∈ out ∧ lit "1999" ∈ out ∧ lit "99" ∈ out ∧ lit "j0hn" ∈ out
   ∧ lit "john1999" ∈ out ∧ lit "John-1999" ∈ out)
  ∧ tokens_of (lit "John") [] (lit "1999-05-01") []
    = [lit "John"; lit "1999"; lit "05"; lit "01"; lit "99"]
  ∧ Forall (Forall (fun c => is_separator c = false))
           (tokens_of (lit "John") [] (lit "1999-05-01") []).
Proof.
  intros Hnow Hmax out. unfold out.
  rewrite (cmd_gen_uncut _ _ _ _ _ _ _ Hmax). clear Hmax.
  split; [exact (example_wordlist now Hnow)|].
  split; [exact example_tokens|exact example_tokens_clean].
Qed.

Lemma C2_example_without_cut_witness :
  let out := cmd_gen 2025 (lit "John") [] (lit "1999-05-01") [] [] 0 in
  (lit "john" ∈ out ∧ lit "1999" ∈ out ∧ lit "99" ∈ out ∧ lit "j0hn" ∈ out
   ∧ lit "john1999" ∈ out ∧ lit "John-1999" ∈ out)
  ∧ tokens_of (lit "John") [] (lit "1999-05-01") []
    = [lit "John"; lit "1999"; lit "05"; lit "01"; lit "99"]
  ∧ Forall (Forall (fun c => is_separator c = false))
           (tokens_of (lit "John") [] (lit "1999-05-01") []).
Proof.
  refine (C2_example_without_cut 2025 0 _ _); [lia|left; reflexivity].
Defined.

(** * Further properties of the code *)

(** ** The tokenizer, continued *)

Section TokenizerMore.








End TokenizerMore.




Section JoinSplit.









End JoinSplit.



(** ** The tokens of the date of birth *)

Section DobTokens.

Ltac case_ranges :=
  unfold Unicode.isspace, Unicode.isdecimal, Unicode.isdigit,
    Unicode.in_range in *;
  repeat match goal with
  | |- context [ ?a <=? ?b ] => destruct (N.leb_spec a b)
  | |- context [ ?a =? ?b ] => destruct (N.eqb_spec a b)
  | H : context [ ?a <=? ?b ] |- _ => destruct (N.leb_spec a b)
  | H : context [ ?a =? ?b ] |- _ => destruct (N.eqb_spec a b)
  end; simpl in *; try done; try lia.


Lemma isdecimal_not_separator c :
  Unicode.isdecimal c = true → is_separator c = false.
Proof. unfold is_separator. intros Hc. case_ranges. Qed.





End DobTokens.




(** ** The cap, continued *)

Section CapMore.

Lemma cmd_gen_negative now name pet dob keywords years max :
  (max < 0)%Z →
  cmd_gen now name pet dob keywords years max
  = take (length (gen_wordlist now name pet dob keywords years)
          - Z.to_nat (- max))
         (gen_wordlist now name pet dob keywords years).
Proof.
  intros Hmax. unfold cmd_gen, slice_to.
  rewrite decide_True by lia.
  destruct (Z.leb_spec 0 max); [lia|]. f_equal. lia.
Qed.

Lemma cmd_gen_prefix now name pet dob keywords years max :
  cmd_gen now name pet dob keywords years max
  `prefix_of` gen_wordlist now name pet dob keywords years.
Proof.
  unfold cmd_gen, slice_to. case_decide; [|done].
  destruct (0 <=? max)%Z; apply prefix_take.
Qed.

Lemma prefix_StronglySorted {A} (R : relation A) (l k : list A) :
  l `prefix_of` k → StronglySorted R k → StronglySorted R l.
Proof. intros [k' ->] Hk. by apply StronglySorted_app_1_l in Hk. Qed.

End CapMore.

(** X6. A negative maximum is not "no cap": [cmd_gen] then drops the last
    [-max] entries of the wordlist (all of them when there are not more),
    as the slice of the source does. *)
Theorem X6_cmd_gen_negative_max now name pet dob keywords years (max : Z) :
  (max < 0)%Z →
  cmd_gen now name pet dob keywords years max
  = take (length (gen_wordlist now name pet dob keywords years)
          - Z.to_nat (- max))
         (gen_wordlist now name pet dob keywords years).
Proof. apply cmd_gen_negative. Qed.

Lemma X6_cmd_gen_negative_max_witness :
  cmd_gen 2025 (lit "ab") [] [] [] [] (-2)
  = take (length (gen_wordlist 2025 (lit "ab") [] [] [] [])
          - Z.to_nat (- (-2)))
         (gen_wordlist 2025 (lit "ab") [] [] [] []).
Proof. refine (X6_cmd_gen_negative_max 2025 _ _ _ _ _ (-2) _). lia. Defined.

(** X7. For every maximum (positive, zero or negative) the lines written
    are a prefix of the wordlist, in strictly increasing order: the cap
    never reorders, repeats or invents an entry. *)
Theorem X7_cmd_gen_writes_sorted_prefix now name pet dob keywords years max :
  cmd_gen now name pet dob keywords years max
    `prefix_of` gen_wordlist now name pet dob keywords years
  ∧ StronglySorted str_lt (cmd_gen now name pet dob keywords years max).
Proof.
  split; [apply cmd_gen_prefix|].
  eapply prefix_StronglySorted; [apply cmd_gen_prefix|].
  apply gen_wordlist_strict.
Qed.

(** ** The combiner, continued *)

Section MixMore.

Lemma mix_ext_eq (l k : list pystr) :
  NoDup l → NoDup k → (∀ w, w ∈ l ↔ w ∈ k) → mix l = mix k.
Proof. intros Hl Hk Hlk. apply set_eq. by apply mix_ext. Qed.

Lemma mix_repeated (a : pystr) (l1 l2 l3 : list pystr) :
  a ≠ [] → a ++ a ∈ mix (l1 ++ a :: l2 ++ a :: l3).
Proof.
  intros Ha. apply elem_of_mix. right. exists a, a, []. split; [|split].
  - apply elem_of_permutations2.
    rewrite !filter_app, !filter_cons_True by done.
    rewrite filter_app, filter_cons_True by done.
    eexists _, _. split; [reflexivity|].
    rewrite !elem_of_app, elem_of_cons. auto.
  - left.
  - done.
Qed.

Lemma mix_singleton (w : pystr) :
  mix [w] = if decide (w = []) then ∅ else l33tify w.
Proof.
  apply set_eq. intros x. rewrite elem_of_mix. case_decide as Hw.
  - subst w. rewrite filter_cons_False by (by intros ?).
    rewrite filter_nil. rewrite elem_of_empty. split; [|done].
    intros [(w & Hw%elem_of_nil & _)|(a & b & s & Hab%elem_of_nil & _)]; done.
  - rewrite filter_cons_True by done. rewrite filter_nil.
    change (permutations2 [w]) with (@nil (pystr * pystr)). split.
    + intros [(w' & ->%list_elem_of_singleton & Hx)|(a & b & s & Hab%elem_of_nil & _)];
        done.
    + intros Hx. left. exists w. split; [left|done].
Qed.

End MixMore.

(** X8. The combiner does not depend on the order of its words: on two
    duplicate-free lists with the same elements it returns the same set,
    so the iteration order of the set [base] does not matter. *)
Theorem X8_mix_order_independent (l k : list pystr) :
  NoDup l → NoDup k → (∀ w, w ∈ l ↔ w ∈ k) → mix l = mix k.
Proof. apply mix_ext_eq. Qed.

Lemma X8_mix_order_independent_witness :
  mix [lit "ab"; lit "cd"] = mix [lit "cd"; lit "ab"].
Proof.
  apply X8_mix_order_independent.
  - apply NoDup_cons. split; [|apply NoDup_singleton].
    intros Hin%list_elem_of_singleton. discriminate Hin.
  - apply NoDup_cons. split; [|apply NoDup_singleton].
    intros Hin%list_elem_of_singleton. discriminate Hin.
  - intros w. rewrite !elem_of_cons, !elem_of_nil. tauto.
Defined.

(** X9. [itertools.permutations] pairs positions, not values: when a
    non-empty word occurs twice in the list given to [mix], the word
    joined to itself is in the result. *)
Theorem X9_mix_pairs_repeated_word (a : pystr) (l1 l2 l3 : list pystr) :
  a ≠ [] → a ++ a ∈ mix (l1 ++ a :: l2 ++ a :: l3).
Proof. apply mix_repeated. Qed.

Lemma X9_mix_pairs_repeated_word_witness :
  lit "ab" ++ lit "ab" ∈ mix ([] ++ lit "ab" :: [] ++ lit "ab" :: []).
Proof. apply X9_mix_pairs_repeated_word. discriminate. Defined.

(** X10. With fewer than two words nothing is combined: the combiner
    returns the leet variants of a single non-empty word, and the empty
    set for an empty word or no word. *)
Theorem X10_mix_of_one_word (w : pystr) :
  mix [] = ∅
  ∧ mix [w] = if decide (w = []) then ∅ else l33tify w.
Proof. split; [reflexivity|apply mix_singleton]. Qed.

(** ** The leet expander, continued *)

Section LeetMore.

Ltac case_tables :=
  unfold Unicode.totitle in *;
  unfold Unicode.tolower, Unicode.toupper, Unicode.iscased,
    Unicode.isspace, Unicode.isdecimal, Unicode.in_range in *;
  repeat match goal with
  | |- context [ ?a <=? ?b ] => destruct (N.leb_spec a b)
  | |- context [ ?a =? ?b ] => destruct (N.eqb_spec a b)
  | H : context [ ?a <=? ?b ] |- _ => destruct (N.leb_spec a b)
  | H : context [ ?a =? ?b ] |- _ => destruct (N.eqb_spec a b)
  end; simpl in *; try done; try lia.

Lemma decimal_caseless c :
  Unicode.isdecimal c = true →
  Unicode.tolower c = [c] ∧ Unicode.toupper c = [c]
  ∧ Unicode.totitle c = [c] ∧ spec_leet_digit c = None.
Proof.
  intros Hc. unfold spec_leet_digit. repeat split; case_tables.
Qed.

Lemma decimal_lower w :
  Forall (fun c => Unicode.isdecimal c = true) w → lower w = w.
Proof.
  induction 1 as [|c w Hc Hw IH]; [done|]. unfold lower in *. simpl.
  destruct (decimal_caseless c Hc) as (-> & _). simpl. by rewrite IH.
Qed.

Lemma decimal_upper w :
  Forall (fun c => Unicode.isdecimal c = true) w → upper w = w.
Proof.
  induction 1 as [|c w Hc Hw IH]; [done|]. unfold upper in *. simpl.
  destruct (decimal_caseless c Hc) as (_ & -> & _). simpl. by rewrite IH.
Qed.

Lemma decimal_capitalize w :
  Forall (fun c => Unicode.isdecimal c = true) w → capitalize w = w.
Proof.
  destruct 1 as [|c w Hc Hw]; [done|]. simpl.
  destruct (decimal_caseless c Hc) as (_ & _ & -> & _).
  simpl. by rewrite decimal_lower.
Qed.

Lemma decimal_title_from previous_is_cased w :
  Forall (fun c => Unicode.isdecimal c = true) w →
  title_from previous_is_cased w = w.
Proof.
  intros Hw. revert previous_is_cased.
  induction Hw as [|c w Hc Hw IH]; intros previous_is_cased; [done|].
  simpl. rewrite IH.
  destruct (decimal_caseless c Hc) as (-> & _ & -> & _).
  by destruct previous_is_cased.
Qed.

Lemma l33tify_decimal w :
  Forall (fun c => Unicode.isdecimal c = true) w → l33tify w = {[ w ]}.
Proof.
  intros Hw. apply set_eq. intros x.
  rewrite elem_of_l33tify, elem_of_singleton, decimal_lower by done.
  rewrite decimal_capitalize, decimal_upper by done.
  unfold title. rewrite decimal_title_from by done.
  split; [|intros ->; left; apply spec_cross_product_refl].
  intros [Hx|[?|[?|?]]]; try done.
  apply spec_cross_product_none; [|done].
  eapply Forall_impl; [exact Hw|]. intros c Hc.
  by destruct (decimal_caseless c Hc) as (_ & _ & _ & ?).
Qed.

(** A set whose elements are all in a list is not larger than the list. *)
Lemma size_le_length (X : gset pystr) (l : list pystr) :
  (∀ x, x ∈ X → x ∈ l) → (size X ≤ length l)%nat.
Proof.
  intros HX. unfold size, set_size. simpl.
  apply submseteq_length, NoDup_submseteq; [apply NoDup_elements|].
  intros x Hx. by apply HX, elem_of_elements.
Qed.





End LeetMore.

(** X11. A word of decimal digits has no variant but itself: its leet
    expansion is the singleton of the word (the numeric tokens of a date
    are never altered). *)
Theorem X11_l33tify_of_digits (word : pystr) :
  Forall (fun c => Unicode.isdecimal c = true) word →
  l33tify word = {[ word ]}.
Proof. apply l33tify_decimal. Qed.

Lemma X11_l33tify_of_digits_witness : l33tify (lit "1999") = {[ lit "1999" ]}.
Proof. apply X11_l33tify_of_digits. repeat constructor. Defined.


(** ** The affixer and the size of the result *)

Section Sizes.

Lemma length_flat_map_const {A B} (f : A → list B) (l : list A) (m : nat) :
  (∀ x, length (f x) = m) → length (flat_map f l) = (length l * m)%nat.
Proof.
  intros Hf. induction l as [|x l IH]; [done|].
  simpl. rewrite length_app, IH, Hf. lia.
Qed.

Lemma size_sprinkle (words : list pystr) :
  (size (sprinkle words) ≤ 16 * length words)%nat.
Proof.
  etrans; [apply (size_le_length _ (sprinkle_list words))|].
  - intros x. by rewrite elem_of_sprinkle_list.
  - unfold sprinkle_list.
    rewrite (length_flat_map_const _ _ 16); [lia|]. intros w.
    by rewrite length_app, !length_map.
Qed.

Lemma sprinkle_longer (words : list pystr) (x : pystr) :
  x ∈ sprinkle words →
  ∃ w, w ∈ words ∧ (length w < length x ≤ length w + 5)%nat.
Proof.
  intros (w & Hw & Hx)%elem_of_sprinkle. exists w. split; [done|].
  destruct Hx as [(suf & Hsuf & ->)|(pre & Hpre & ->)];
    rewrite length_app.
  - unfold COMMON_SUFFIXES in Hsuf. rewrite !elem_of_cons, elem_of_nil in Hsuf.
    destruct Hsuf as [->|[->|[->|[->|[->|[->|[->|[->|[->|[->|[->|[->|[]]]]]]]]]]]]];
      simpl; lia.
  - unfold COMMON_PREFIXES in Hpre. rewrite !elem_of_cons, elem_of_nil in Hpre.
    destruct Hpre as [->|[->|[->|[->|[]]]]]; simpl; lia.
Qed.

Lemma size_union_le (X Y : gset pystr) : (size (X ∪ Y) ≤ size X + size Y)%nat.
Proof.
  rewrite size_union_alt. apply Nat.add_le_mono_l, subseteq_size.
  intros x Hx. by apply elem_of_difference in Hx as [? _].
Qed.

Lemma size_pool_of (tokens : list pystr) :
  (size (pool_of tokens)
   ≤ 17 * size (mix (elements (list_to_set tokens : gset pystr))))%nat.
Proof.
  unfold pool_of.
  generalize (mix (elements (list_to_set tokens : gset pystr))). intros M.
  etrans; [apply size_union_le|].
  pose proof (size_sprinkle (elements M)) as Hs.
  change (length (elements M)) with (size M) in Hs. lia.
Qed.

Lemma size_candidates now name pet dob keywords extra_years :
  (size (candidates now name pet dob keywords extra_years)
   ≤ length (tokens_of name pet dob keywords)
     + size (pool_of (tokens_of name pet dob keywords))
       * (1 + 2 * size (years_of now extra_years)))%nat.
Proof.
  set (tokens := tokens_of name pet dob keywords).
  set (pool := pool_of tokens). set (years := years_of now extra_years).
  etrans; [apply (size_le_length _
    (tokens ++ elements pool
       ++ flat_map (fun w => flat_map (fun y => [w ++ y; y ++ w])
                                      (elements years))
                   (elements pool)))|].
  - intros x Hx. apply elem_of_candidates in Hx. fold tokens pool years in Hx.
    rewrite !elem_of_app, elem_of_elements, elem_of_flat_map.
    destruct Hx as [?|[?|(w & y & Hw & Hy & Hx)]]; [by left|by right; left|].
    right; right. exists w. split; [|by apply elem_of_elements].
    apply elem_of_flat_map. exists y. split; [|by apply elem_of_elements].
    rewrite !elem_of_cons. tauto.
  - rewrite !length_app.
    rewrite (length_flat_map_const _ _ (2 * size years)).
    + unfold size, set_size. simpl. lia.
    + intros w. rewrite (length_flat_map_const _ _ 2) by done.
      unfold size, set_size. simpl. lia.
Qed.

End Sizes.

(** X13. The affixer returns at most sixteen strings per word, and each
    of them is a word of the input made longer by one to five
    characters. *)
Theorem X13_sprinkle_growth (words : list pystr) :
  (size (sprinkle words) ≤ 16 * length words)%nat
  ∧ ∀ x, x ∈ sprinkle words →
         ∃ w, w ∈ words ∧ (length w < length x ≤ length w + 5)%nat.
Proof. split; [apply size_sprinkle|apply sprinkle_longer]. Qed.

Lemma X13_sprinkle_growth_witness :
  ∃ w, w ∈ [lit "rex"]
       ∧ (length w < length (lit "rex007") ≤ length w + 5)%nat.
Proof.
  apply (X13_sprinkle_growth [lit "rex"]).
  apply elem_of_sprinkle. exists (lit "rex"). split; [left|].
  left. exists (lit "007"). split; [|reflexivity]. do 9 right. left.
Defined.

(** X14. The number of candidates is bounded: the pool has at most
    seventeen times as many strings as the combiner returns, and the
    candidate set at most the tokens plus the pool times one plus twice
    the number of years. *)
Theorem X14_candidates_size now name pet dob keywords extra_years :
  (size (pool_of (tokens_of name pet dob keywords))
   ≤ 17 * size (mix (elements
       (list_to_set (tokens_of name pet dob keywords) : gset pystr))))%nat
  ∧ (length (gen_wordlist now name pet dob keywords extra_years)
     ≤ length (tokens_of name pet dob keywords)
       + size (pool_of (tokens_of name pet dob keywords))
         * (1 + 2 * size (years_of now extra_years)))%nat.
Proof.
  split; [apply size_pool_of|].
  rewrite length_gen_wordlist. apply size_candidates.
Qed.

(** ** The years, continued *)

Section YearsMore.

Lemma dec_digits_value fuel n acc :
  n < 2 ^ N.of_nat fuel →
  fold_left (fun a c => 10 * a + (c - 48)) (dec_digits fuel n acc) 0
  = fold_left (fun a c => 10 * a + (c - 48)) acc n.
Proof.
  revert n acc. induction fuel as [|fuel IH]; intros n acc Hn.
  - simpl in *. by assert (n = 0) as -> by lia.
  - cbn [dec_digits].
    assert (n mod 10 < 10) as Hmod by (by apply N.mod_upper_bound).
    pose proof (N.div_mod n 10 ltac:(done)) as Hdiv.
    rewrite Nat2N.inj_succ, N.pow_succ_r' in Hn.
    generalize dependent (n mod 10). generalize dependent (n / 10).
    intros q r Hmod Hdiv.
    destruct (N.eqb_spec q 0) as [Hz|Hnz].
    + simpl. f_equal. lia.
    + rewrite IH by lia. simpl. f_equal. lia.
Qed.

Lemma int_of_digits_str_of_N n : int_of_digits (str_of_N n) = n.
Proof.
  unfold int_of_digits, str_of_N. rewrite dec_digits_value; [done|].
  rewrite Nat2N.inj_succ, N2Nat.id.
  destruct n as [|p]; [done|]. apply N.log2_spec. done.
Qed.

Lemma int_of_digits_str_of_int z :
  (0 ≤ z)%Z → Z.of_N (int_of_digits (str_of_int z)) = z.
Proof.
  intros Hz. destruct z as [|p|p]; [done| |lia].
  unfold str_of_int. by rewrite int_of_digits_str_of_N.
Qed.

Lemma length_year_range start end_ :
  length (year_range start end_) = Z.to_nat (end_ - start + 1).
Proof.
  unfold year_range, range. rewrite !length_map, length_seq. f_equal. lia.
Qed.

Lemma NoDup_year_range start end_ :
  (0 ≤ start)%Z → NoDup (year_range start end_).
Proof.
  intros Hs. unfold year_range, range.
  apply (NoDup_fmap_2_strong str_of_int).
  - intros x y (i & -> & Hi)%elem_of_map (j & -> & Hj)%elem_of_map Heq.
    apply (f_equal (fun s => Z.of_N (int_of_digits s))) in Heq.
    rewrite !int_of_digits_str_of_int in Heq by lia. done.
  - apply (NoDup_fmap_2_strong (fun i => (start + Z.of_nat i)%Z));
      [|apply NoDup_seq].
    intros i j _ _ Hij. lia.
Qed.

Lemma year_range_entries start end_ :
  (0 ≤ start)%Z →
  Forall (fun y => isdigit y = true
                   ∧ (start ≤ Z.of_N (int_of_digits y) ≤ end_)%Z)
         (year_range start end_).
Proof.
  intros Hs. apply Forall_forall. intros y Hy. split.
  - by apply (year_range_isdigit start end_).
  - apply elem_of_year_range in Hy as (z & Hz & ->).
    rewrite int_of_digits_str_of_int; lia.
Qed.

End YearsMore.

(** X15. For a start that is not negative, [year_range] returns one
    string per integer of the inclusive range (none when the end is below
    the start), all different, each accepted by [str.isdigit] and
    reading back, as a decimal number, as an integer of the range. *)
Theorem X15_year_range (start end_ : Z) :
  (0 ≤ start)%Z →
  length (year_range start end_) = Z.to_nat (end_ - start + 1)
  ∧ NoDup (year_range start end_)
  ∧ Forall (fun y => isdigit y = true
                     ∧ (start ≤ Z.of_N (int_of_digits y) ≤ end_)%Z)
           (year_range start end_).
Proof.
  intros Hs. split; [apply length_year_range|].
  split; [by apply NoDup_year_range|by apply year_range_entries].
Qed.

Lemma X15_year_range_witness :
  length (year_range 1990 2026) = Z.to_nat (2026 - 1990 + 1)
  ∧ NoDup (year_range 1990 2026)
  ∧ Forall (fun y => isdigit y = true
                     ∧ (1990 ≤ Z.of_N (int_of_digits y) ≤ 2026)%Z)
           (year_range 1990 2026).
Proof. apply X15_year_range. lia. Defined.

(** ** The assembler, continued *)

Section AssemblerMore.

Lemma gen_wordlist_mono now now' name pet dob keywords extra_years x :
  (now ≤ now')%Z →
  x ∈ gen_wordlist now name pet dob keywords extra_years →
  x ∈ gen_wordlist now' name pet dob keywords extra_years.
Proof.
  intros Hle. rewrite !elem_of_gen_wordlist. by apply candidates_mono.
Qed.

(** The wordlist depends on the hints through the set of tokens only. *)
Lemma gen_wordlist_tokens now name pet dob keywords name' pet' dob' keywords'
    extra_years :
  (∀ t, t ∈ tokens_of name pet dob keywords
        ↔ t ∈ tokens_of name' pet' dob' keywords') →
  gen_wordlist now name pet dob keywords extra_years
  = gen_wordlist now name' pet' dob' keywords' extra_years.
Proof.
  intros Htok. unfold gen_wordlist, candidates.
  assert ((list_to_set (tokens_of name pet dob keywords) : gset pystr)
          = list_to_set (tokens_of name' pet' dob' keywords')) as ->; [|done].
  apply set_eq. intros t. by rewrite !elem_of_list_to_set.
Qed.

(** The affixes come before the years: a year is attached to the affixed
    candidates, on both sides. *)
Lemma affix_then_year now name pet dob keywords extra_years w y :
  w ∈ mix (elements
        (list_to_set (tokens_of name pet dob keywords) : gset pystr)) →
  y ∈ years_of now extra_years →
  (∀ suf, suf ∈ COMMON_SUFFIXES →
          (w ++ suf) ++ y ∈ gen_wordlist now name pet dob keywords extra_years
          ∧ y ++ (w ++ suf)
            ∈ gen_wordlist now name pet dob keywords extra_years)
  ∧ (∀ pre, pre ∈ COMMON_PREFIXES →
            (pre ++ w) ++ y ∈ gen_wordlist now name pet dob keywords extra_years
            ∧ y ++ (pre ++ w)
              ∈ gen_wordlist now name pet dob keywords extra_years).
Proof.
  intros Hw Hy.
  assert (∀ v, (∃ suf, suf ∈ COMMON_SUFFIXES ∧ v = w ++ suf)
               ∨ (∃ pre, pre ∈ COMMON_PREFIXES ∧ v = pre ++ w) →
               v ++ y ∈ gen_wordlist now name pet dob keywords extra_years
               ∧ y ++ v ∈ gen_wordlist now name pet dob keywords extra_years)
    as Hboth.
  { intros v Hv.
    assert (v ∈ pool_of (tokens_of name pet dob keywords)) as Hpool.
    { apply elem_of_pool_of. right. by exists w. }
    split; apply elem_of_gen_wordlist, elem_of_candidates; right; right;
      exists v, y; auto. }
  split.
  - intros suf Hsuf. apply Hboth. left. by exists suf.
  - intros pre Hpre. apply Hboth. right. by exists pre.
Qed.

End AssemblerMore.

(** X16. The wordlist grows with the clock: every entry generated in one
    year is generated, for the same hints, in every later year. *)
Theorem X16_wordlist_grows_with_year now now' name pet dob keywords
    extra_years x :
  (now ≤ now')%Z →
  x ∈ gen_wordlist now name pet dob keywords extra_years →
  x ∈ gen_wordlist now' name pet dob keywords extra_years.
Proof. apply gen_wordlist_mono. Qed.

Lemma X16_wordlist_grows_with_year_witness :
  lit "Rex" ∈ gen_wordlist 2030 (lit "Rex") [] [] [] [].
Proof.
  refine (X16_wordlist_grows_with_year 2025 2030 _ _ _ _ _ _ _ _); [lia|].
  apply elem_of_gen_wordlist, elem_of_candidates. left.
  change (tokens_of (lit "Rex") [] [] []) with [lit "Rex"]. left.
Defined.

(** X17. The wordlist depends on the name, the pet, the keywords and the
    date of birth through the set of their tokens only: hints with the
    same tokens, in any field and order, give the same wordlist. *)
Theorem X17_wordlist_depends_on_token_set now name pet dob keywords
    name' pet' dob' keywords' extra_years :
  (∀ t, t ∈ tokens_of name pet dob keywords
        ↔ t ∈ tokens_of name' pet' dob' keywords') →
  gen_wordlist now name pet dob keywords extra_years
  = gen_wordlist now name' pet' dob' keywords' extra_years.
Proof. apply gen_wordlist_tokens. Qed.

Lemma X17_wordlist_depends_on_token_set_witness :
  gen_wordlist 2025 (lit "John") (lit "Rex") [] [] []
  = gen_wordlist 2025 [] [] [] (lit "Rex, John Rex") [].
Proof.
  refine (X17_wordlist_depends_on_token_set 2025 _ _ _ _ _ _ _ _ _ _).
  intros t.
  change (tokens_of (lit "John") (lit "Rex") [] [])
    with [lit "John"; lit "Rex"].
  change (tokens_of [] [] [] (lit "Rex, John Rex"))
    with [lit "Rex"; lit "John"; lit "Rex"].
  rewrite !elem_of_cons, elem_of_nil. tauto.
Defined.

(** X18. The stages compose in the order affixes, then years: for every
    string of the combiner, every suffix or prefix of the affixer and
    every year, the affixed string with the year after it and with the
    year before it are entries of the wordlist. *)
Theorem X18_affixed_candidates_get_years now name pet dob keywords
    extra_years w y :
  w ∈ mix (elements
        (list_to_set (tokens_of name pet dob keywords) : gset pystr)) →
  y ∈ years_of now extra_years →
  (∀ suf, suf ∈ COMMON_SUFFIXES →
          (w ++ suf) ++ y ∈ gen_wordlist now name pet dob keywords extra_years
          ∧ y ++ (w ++ suf)
            ∈ gen_wordlist now name pet dob keywords extra_years)
  ∧ (∀ pre, pre ∈ COMMON_PREFIXES →
            (pre ++ w) ++ y ∈ gen_wordlist now name pet dob keywords extra_years
            ∧ y ++ (pre ++ w)
              ∈ gen_wordlist now name pet dob keywords extra_years).
Proof. apply affix_then_year. Qed.

Lemma X18_affixed_candidates_get_years_witness :
  (lit "r3x" ++ lit "123") ++ lit "2050"
  ∈ gen_wordlist 2025 [] (lit "Rex") [] [] (lit "2050").
Proof.
  refine (proj1 (proj1 (X18_affixed_candidates_get_years 2025 [] (lit "Rex")
    [] [] (lit "2050") (lit "r3x") (lit "2050") _ _) (lit "123") _)).
  - apply elem_of_mix_tokens. left. exists (lit "Rex").
    change (tokens_of [] (lit "Rex") [] []) with [lit "Rex"].
    split; [left|]. split; [discriminate|].
    apply elem_of_l33tify. left. cross_product.
  - apply elem_of_years_of. right.
    change (split_tokens (lit "2050")) with [lit "2050"].
    split; [left|reflexivity].
  - do 4 right. left.
Defined.

(** ** The entries of the wordlist as lines *)

Section Lines.

Ltac case_tables :=
  unfold Unicode.totitle in *;
  unfold Unicode.tolower, Unicode.toupper, Unicode.iscased,
    Unicode.isspace, Unicode.isdecimal, Unicode.in_range in *;
  repeat match goal with
  | |- context [ ?a <=? ?b ] => destruct (N.leb_spec a b)
  | |- context [ ?a =? ?b ] => destruct (N.eqb_spec a b)
  | H : context [ ?a <=? ?b ] |- _ => destruct (N.leb_spec a b)
  | H : context [ ?a =? ?b ] |- _ => destruct (N.eqb_spec a b)
  end; simpl in *; try done; try lia.




























End Lines.

